(** * A shallow embedding of [binja] ([src/lib.rs]): the [Translator]
    registry ([new], [add_text], [translate]) and the Aho-Corasick
    replace pass that [translate] delegates to. *)

From Stdlib Require Import Ascii String.
From stdpp Require Import base list gmap sets strings sorting relations.

Local Open Scope list_scope.

(** ** Data model *)

(** [pub enum Error].  [AhoCorasickMatch] wraps a library
    [MatchError]; its payload is irrelevant here. *)
Inductive Error :=
| DuplicatedKey (s : string)
| DuplicatedArgument (s : string)
| UnknownLanguage (s : string)
| UnknownArgument (s : string)
| MissingKey (s : string)
| MissingLanguage (s : string)
| AhoCorasickMatch
| AhoCorasickBuild (s : string).

(** [Result<A, Error>]. *)
Inductive Result (A : Type) :=
| Ok (a : A)
| Err (e : Error).
Arguments Ok {A} a.
Arguments Err {A} e.

(** [pub type LanguageId = usize]. *)
Abbreviation LanguageId := nat (only parsing).

(** [struct Translation]. *)
Module Translation.
Record t := mk {
  arguments : list string;
  translations : gmap LanguageId string
}.
End Translation.

(** [pub struct Translator]. *)
Module Translator.
Record t := mk {
  languages : list string;
  translations : gmap string Translation.t
}.
End Translator.

(** The byte view of a string ([str::as_bytes]); Aho-Corasick works on bytes. *)
Abbreviation bytes := (list ascii) (only parsing).
Definition as_bytes (s : string) : bytes := list_ascii_of_string s.
Definition from_bytes (b : bytes) : string := string_of_list_ascii b.

(** [Iterator::position(|lang| lang == x)]. *)
Fixpoint position (x : string) (l : list string) : option nat :=
  match l with
  | [] => None
  | y :: l' => if bool_decide (y = x) then Some 0 else S <$> position x l'
  end.

(** ** [Translator::new] *)

(** [Vec::dedup]: drop consecutive repeats, keeping the first of each run. *)
Fixpoint dedup_go (prev : string) (l : list string) : list string :=
  match l with
  | [] => []
  | x :: l' => if bool_decide (x = prev) then dedup_go prev l' else x :: dedup_go x l'
  end.

Definition dedup (l : list string) : list string :=
  match l with
  | [] => []
  | x :: l' => x :: dedup_go x l'
  end.

(** [<[CompactString]>::sort]: the byte-lexicographic order of [str].
    The sorted output of a total order on strings is unique, so stdpp's
    merge sort stands for Rust's stable sort. *)
Definition sort (l : list string) : list string := merge_sort String.le l.

Definition new (languages : list string) : Translator.t :=
  Translator.mk (dedup (sort languages)) ∅.

(** ** [Translator::add_text] *)

(** The [for (language_key, message) in translations] loop, threading
    [processed_translations]. *)
Fixpoint process_translations (languages : list string)
    (processed : gmap LanguageId string) (trs : list (string * string))
    : Result (gmap LanguageId string) :=
  match trs with
  | [] => Ok processed
  | (language_key, message) :: rest =>
      match position language_key languages with
      | None => Err (UnknownLanguage language_key)
      | Some language_id =>
          let is_duplicate := bool_decide (is_Some (processed !! language_id)) in
          let processed' := <[language_id := message]> processed in
          if is_duplicate then Err (DuplicatedKey language_key)
          else process_translations languages processed' rest
      end
  end.

Definition missing_language_msg : string := "Not all languages have translations".

(** [&mut self] is threaded explicitly: the first component is [self]
    after the call. *)
Definition add_text (self : Translator.t) (key : string) (arguments : list string)
    (trs : list (string * string)) : Translator.t * Result unit :=
  if bool_decide (is_Some (Translator.translations self !! key)) then
    (self, Err (DuplicatedKey key))
  else
    match process_translations (Translator.languages self) ∅ trs with
    | Err e => (self, Err e)
    | Ok processed =>
        if bool_decide (size processed < length (Translator.languages self)) then
          (self, Err (MissingLanguage missing_language_msg))
        else
          (Translator.mk (Translator.languages self)
             (<[key := Translation.mk arguments processed]> (Translator.translations self)),
           Ok tt)
    end.

(** ** The Aho-Corasick replace pass

    [AhoCorasick::new(patterns)] builds an automaton with the default
    [MatchKind::Standard]; [try_replace_all] walks the non-overlapping
    matches of [find_iter] from left to right.  Under standard semantics
    a search is "earliest": it reports a match at the first byte where
    the automaton enters a match state.  After reading the bytes [buf]
    since the search began, the automaton is in a match state exactly when
    some pattern is a suffix of [buf], and the first pattern in that
    state's match list is the longest such suffix (the state's own pattern
    comes before the ones inherited through failure links; equal patterns
    keep insertion order).  The search then restarts from the start state
    at the end of the match.  A pattern is paired with the value that
    replaces it ([replace_with[mat.pattern()]]). *)

Definition longer (best : option (bytes * bytes)) (p : bytes) : bool :=
  match best with
  | None => true
  | Some (q, _) => bool_decide (length q < length p)
  end.

(** The reported pattern of the match list of the state reached on [buf]. *)
Fixpoint best_match_go (best : option (bytes * bytes)) (pats : list (bytes * bytes))
    (buf : bytes) : option (bytes * bytes) :=
  match pats with
  | [] => best
  | (p, v) :: ps =>
      best_match_go
        (if bool_decide (suffix p buf) && longer best p then Some (p, v) else best) ps buf
  end.

Definition best_match (pats : list (bytes * bytes)) (buf : bytes) : option (bytes * bytes) :=
  best_match_go None pats buf.

(** One search-and-replace sweep from the start state: [buf] holds the
    bytes read since the last match. *)
Fixpoint replace_go (pats : list (bytes * bytes)) (buf rest : bytes) : bytes :=
  match rest with
  | [] => buf
  | c :: r =>
      let buf' := buf ++ [c] in
      match best_match pats buf' with
      | Some (p, v) => take (length buf' - length p) buf' ++ v ++ replace_go pats [] r
      | None => replace_go pats buf' r
      end
  end.

(** When the empty pattern is present, the start state itself is a match
    state: every search reports an empty match at its first position,
    and [FindIter] steps one byte past an empty match that ends where the
    previous one did.  The value is written before every byte and at the end.
    This is exact when every byte position of the template is a character
    boundary (an ASCII template); on a [str] with multi-byte characters the
    library does not report empty matches inside a character. *)
Fixpoint replace_empty (v : bytes) (hay : bytes) : bytes :=
  match hay with
  | [] => v
  | c :: r => v ++ c :: replace_empty v r
  end.

(** [ac.try_replace_all(haystack, replace_with)].  The build and the search
    only fail on capacity limits or unsupported configurations, which the
    default unanchored standard automaton does not hit. *)
Definition try_replace_all (pats : list (bytes * bytes)) (hay : bytes) : bytes :=
  match best_match pats [] with
  | Some (_, v) => replace_empty v hay
  | None => replace_go pats [] hay
  end.

(** ** [Translator::translate] *)

(** The [for (argument_received, value_to_replace) in args] loop, threading
    [arguments] and [values_to_replace]. *)
Fixpoint check_args (declared : list string) (arguments values : list string)
    (args : list (string * string)) : Result (list string * list string) :=
  match args with
  | [] => Ok (arguments, values)
  | (argument_received, value_to_replace) :: rest =>
      if bool_decide (argument_received ∈ declared) then
        if bool_decide (argument_received ∈ arguments) then
          Err (DuplicatedArgument argument_received)
        else
          check_args declared (arguments ++ [argument_received])
            (values ++ [value_to_replace]) rest
      else Err (UnknownArgument argument_received)
  end.

(** [None] is a panic: [translation.translations[&language_id]] indexes a
    [HashMap], which panics on an absent key. *)
Definition translate (self : Translator.t) (key language : string)
    (args : list (string * string)) : option (Result string) :=
  match Translator.translations self !! key with
  | None => Some (Err (MissingKey key))
  | Some translation =>
      match position language (Translator.languages self) with
      | None => Some (Err (UnknownLanguage language))
      | Some language_id =>
          match Translation.translations translation !! language_id with
          | None => None
          | Some message_to_translate =>
              match check_args (Translation.arguments translation) [] [] args with
              | Err e => Some (Err e)
              | Ok (arguments, values_to_replace) =>
                  Some (Ok (from_bytes
                    (try_replace_all (zip (map as_bytes arguments) (map as_bytes values_to_replace))
                       (as_bytes message_to_translate))))
              end
          end
      end
  end.

(** The registries a program can build: [Translator::new], then any
    sequence of [add_text] calls ([translate] takes [&self]). *)
Inductive step : relation Translator.t :=
| step_add_text self key arguments trs :
    step self (add_text self key arguments trs).1.

Definition reachable (self : Translator.t) : Prop :=
  ∃ languages, rtc step (new languages) self.

(** ** The test of [src/lib.rs] *)

Definition greetings : Translator.t :=
  (add_text (new ["pt"; "en"; "it"]) "greetings" ["NAME"]
     [("en", "Good morning, NAME!"); ("pt", "Bom dia, NAME!"); ("it", "Buongiorno, NAME!")]).1.

Example one_argument_pt :
  translate greetings "greetings" "pt" [("NAME", "Julian")] = Some (Ok "Bom dia, Julian!").
Proof. vm_compute. reflexivity. Qed.

Example one_argument_cz :
  translate greetings "greetings" "cz" [("NAME", "Julian")] = Some (Err (UnknownLanguage "cz")).
Proof. vm_compute. reflexivity. Qed.

Example one_argument_nome :
  translate greetings "greetings" "pt" [("NOME", "Julian")] = Some (Err (UnknownArgument "NOME")).
Proof. vm_compute. reflexivity. Qed.

Example languages_sorted : Translator.languages greetings = ["en"; "it"; "pt"].
Proof. vm_compute. reflexivity. Qed.

Example overlapping_ab_bc :
  try_replace_all [(as_bytes "AB", as_bytes "x"); (as_bytes "BC", as_bytes "y")] (as_bytes "ABC")
  = as_bytes "xC".
Proof. vm_compute. reflexivity. Qed.

Example overlapping_name_name2 :
  try_replace_all [(as_bytes "NAME", as_bytes "J"); (as_bytes "NAME2", as_bytes "K")]
    (as_bytes "Hi NAME! Hi NAME2!") = as_bytes "Hi J! Hi J2!".
Proof. vm_compute. reflexivity. Qed.

Example empty_pattern :
  try_replace_all [(as_bytes "", as_bytes "x"); (as_bytes "a", as_bytes "y")] (as_bytes "ab")
  = as_bytes "xaxbx".
Proof. vm_compute. reflexivity. Qed.

(** ** Lemmas about [position] *)

Lemma position_lookup x l i : position x l = Some i → l !! i = Some x.
Proof.
  revert i. induction l as [|y l IH]; intros i H; simpl in H; [done|].
  case_bool_decide; simplify_eq; [done|].
  destruct (position x l) eqn:E; simplify_eq/=. by apply IH.
Qed.

Lemma position_lt x l i : position x l = Some i → i < length l.
Proof. intros H%position_lookup. by eapply lookup_lt_Some. Qed.

Lemma position_None x l : position x l = None ↔ x ∉ l.
Proof.
  induction l as [|y l IH]; simpl; [set_solver|].
  case_bool_decide; subst; [split; [done|set_solver]|].
  destruct (position x l); simpl; set_solver.
Qed.

Lemma position_elem x l : x ∈ l → ∃ i, position x l = Some i.
Proof. intros H. destruct (position x l) eqn:E; [eauto|]. by apply position_None in E. Qed.

Lemma position_NoDup x l i : NoDup l → l !! i = Some x → position x l = Some i.
Proof.
  intros Hnd Hi. destruct (position x l) as [j|] eqn:E.
  - f_equal. eapply NoDup_lookup; [done| |done]. by apply position_lookup.
  - apply position_None in E. destruct E. by eapply list_elem_of_lookup_2.
Qed.

Lemma position_inj x y l i : position x l = Some i → position y l = Some i → x = y.
Proof. intros Hx%position_lookup Hy%position_lookup. congruence. Qed.

(** ** Lemmas about [add_text] *)

(** The three ways [add_text] can end. *)
Lemma add_text_cases self key arguments trs :
  (is_Some (Translator.translations self !! key) ∧
     add_text self key arguments trs = (self, Err (DuplicatedKey key))) ∨
  (Translator.translations self !! key = None ∧
   ∃ e, process_translations (Translator.languages self) ∅ trs = Err e ∧
     add_text self key arguments trs = (self, Err e)) ∨
  (Translator.translations self !! key = None ∧
   ∃ processed, process_translations (Translator.languages self) ∅ trs = Ok processed ∧
     ((size processed < length (Translator.languages self) ∧
       add_text self key arguments trs = (self, Err (MissingLanguage missing_language_msg))) ∨
      (length (Translator.languages self) ≤ size processed ∧
       add_text self key arguments trs =
         (Translator.mk (Translator.languages self)
            (<[key := Translation.mk arguments processed]> (Translator.translations self)),
          Ok tt)))).
Proof.
  unfold add_text. case_bool_decide as Hk; [by left|].
  right. apply eq_None_not_Some in Hk.
  destruct (process_translations _ _ _) as [processed|e] eqn:Hp; [right|left; eauto].
  split; [done|]. exists processed. split; [done|].
  case_bool_decide; [left|right]; split; auto with lia.
Qed.

(** C6: [add_text] is atomic.  On every error the [Translator] comes back
    unchanged; [languages] is never modified; on success the only change
    is the insertion of the new key, which was absent before. *)
Theorem add_text_atomic self key arguments trs self' r :
  add_text self key arguments trs = (self', r) →
  Translator.languages self' = Translator.languages self ∧
  (∀ e, r = Err e → self' = self) ∧
  (r = Ok tt → Translator.translations self !! key = None ∧
     ∃ entry, Translator.translations self' = <[key := entry]> (Translator.translations self)).
Proof.
  intros Hadd.
  destruct (add_text_cases self key arguments trs)
    as [[_ H]|[[Hk [e [_ H]]]|[Hk [p [_ [[_ H]|[_ H]]]]]]];
    rewrite Hadd in H; simplify_eq/=; split_and!; try done; eauto.
Qed.

Lemma add_text_atomic_witness :
  let self := new ["en"] in
  add_text self "k" [] [("fr", "salut")] = (self, Err (UnknownLanguage "fr")) ∧
  Translator.languages self = Translator.languages self ∧
  (∀ e, @Err unit (UnknownLanguage "fr") = Err e → self = self) ∧
  (@Err unit (UnknownLanguage "fr") = Ok tt → Translator.translations self !! "k" = None ∧
     ∃ entry, Translator.translations self = <[("k" : string) := entry]> (Translator.translations self)).
Proof.
  intros self. assert (H : add_text self "k" [] [("fr", "salut")] = (self, Err (UnknownLanguage "fr")))
    by (vm_compute; reflexivity).
  split; [exact H|]. exact (add_text_atomic self "k" [] [("fr", "salut")] self _ H).
Defined.

(** C9: [add_text] never looks at the placeholder list: the outcome is the
    same for any two placeholder lists (so duplicates in it are never
    rejected), and on success the list is stored as given. *)
Theorem add_text_ignores_arguments self key arguments arguments' trs :
  (add_text self key arguments trs).2 = (add_text self key arguments' trs).2 ∧
  ∀ self', add_text self key arguments trs = (self', Ok tt) →
    ∃ entry, Translator.translations self' !! key = Some entry ∧
      Translation.arguments entry = arguments.
Proof.
  split.
  - unfold add_text. repeat case_match; simplify_eq/=; done.
  - intros self' Hadd.
    destruct (add_text_cases self key arguments trs)
      as [[_ H]|[[Hk [e [_ H]]]|[Hk [p [_ [[_ H]|[_ H]]]]]]];
      rewrite Hadd in H; simplify_eq/=.
    eexists. split; [apply lookup_insert_eq|done].
Qed.

(** [process_translations] never returns [MissingLanguage]. *)
Lemma process_translations_no_missing languages acc trs s :
  process_translations languages acc trs ≠ Err (MissingLanguage s).
Proof.
  revert acc. induction trs as [|[l m] trs IH]; intros acc He; simpl in He; [done|].
  destruct (position l languages); [|done]. case_bool_decide; [done|]. by eapply IH.
Qed.

(** C10: every [MissingLanguage] error of [add_text] carries the fixed
    text "Not all languages have translations". *)
Theorem add_text_missing_language_msg self key arguments trs self' s :
  add_text self key arguments trs = (self', Err (MissingLanguage s)) →
  s = "Not all languages have translations".
Proof.
  intros Hadd.
  destruct (add_text_cases self key arguments trs)
    as [[_ H]|[[Hk [e [He H]]]|[Hk [p [_ [[_ H]|[_ H]]]]]]];
    rewrite Hadd in H; simplify_eq/=; [|reflexivity].
  exfalso. by eapply process_translations_no_missing.
Qed.

Lemma add_text_missing_language_msg_witness :
  add_text (new ["en"; "pt"]) "k" ["NAME"] [("en", "hi")]
    = (new ["en"; "pt"], Err (MissingLanguage "Not all languages have translations")) ∧
  ("Not all languages have translations" : string) = "Not all languages have translations".
Proof.
  assert (H : add_text (new ["en"; "pt"]) "k" ["NAME"] [("en", "hi")]
    = (new ["en"; "pt"], Err (MissingLanguage "Not all languages have translations")))
    by (vm_compute; reflexivity).
  split; [exact H|]. exact (add_text_missing_language_msg _ _ _ _ _ _ H).
Defined.

(** A key, once present, stays present: [add_text] only inserts. *)
Lemma step_keeps_key self self' key :
  step self self' →
  is_Some (Translator.translations self !! key) → is_Some (Translator.translations self' !! key).
Proof.
  intros [self0 k arguments trs] Hk.
  destruct (add_text_cases self0 k arguments trs)
    as [[_ H]|[[_ [e [_ H]]]|[_ [p [_ [[_ H]|[_ H]]]]]]]; rewrite H; simpl; [done..|].
  destruct (decide (k = key)) as [->|]; [rewrite lookup_insert_eq; eauto|].
  by rewrite lookup_insert_ne.
Qed.

Lemma rtc_step_keeps_key self self' key :
  rtc step self self' →
  is_Some (Translator.translations self !! key) → is_Some (Translator.translations self' !! key).
Proof. induction 1; eauto using step_keeps_key. Qed.

(** C4: once [add_text key] has succeeded, every later [add_text key]
    (after any further calls) fails with [DuplicatedKey key], whatever its
    placeholders and translations. *)
Theorem add_text_duplicated_key self key arguments trs self1 self2 arguments' trs' :
  add_text self key arguments trs = (self1, Ok tt) →
  rtc step self1 self2 →
  (add_text self2 key arguments' trs').2 = Err (DuplicatedKey key).
Proof.
  intros Hadd Hsteps.
  assert (Hk1 : is_Some (Translator.translations self1 !! key)).
  { destruct (add_text_ignores_arguments self key arguments arguments trs) as [_ H].
    destruct (H self1 Hadd) as [entry [He _]]. eauto. }
  pose proof (rtc_step_keeps_key _ _ _ Hsteps Hk1) as Hk2.
  unfold add_text. by rewrite bool_decide_eq_true_2.
Qed.

Lemma add_text_duplicated_key_witness :
  add_text (new ["en"]) "k" [] [("en", "hi")]
    = ((add_text (new ["en"]) "k" [] [("en", "hi")]).1, Ok tt) ∧
  rtc step (add_text (new ["en"]) "k" [] [("en", "hi")]).1
           (add_text (new ["en"]) "k" [] [("en", "hi")]).1 ∧
  (add_text (add_text (new ["en"]) "k" [] [("en", "hi")]).1 "k" ["X"] []).2
    = Err (DuplicatedKey "k").
Proof.
  assert (H : add_text (new ["en"]) "k" [] [("en", "hi")]
    = ((add_text (new ["en"]) "k" [] [("en", "hi")]).1, Ok tt)) by (vm_compute; reflexivity).
  split; [exact H|]. split; [apply rtc_refl|].
  exact (add_text_duplicated_key _ _ _ _ _ _ ["X"] [] H (rtc_refl _ _)).
Defined.

(** ** Lemmas about [Translator::new] *)

Lemma dedup_go_spec prev l :
  StronglySorted String.le (prev :: l) →
  StronglySorted String.le (prev :: dedup_go prev l) ∧ NoDup (prev :: dedup_go prev l) ∧
  ∀ x, x ∈ prev :: dedup_go prev l ↔ x ∈ prev :: l.
Proof.
  revert prev. induction l as [|x l IH]; intros prev Hs; simpl.
  { split_and!; [constructor; constructor|constructor; [set_solver|constructor]|done]. }
  apply StronglySorted_inv in Hs as [Hs Hf]. apply Forall_cons in Hf as [Hpx Hf].
  case_bool_decide as Hx.
  - subst x. destruct (IH prev Hs) as (H1 & H2 & H3).
    split_and!; [done|done|]. intros y. rewrite H3. set_solver.
  - destruct (IH x Hs) as (H1 & H2 & H3).
    split_and!.
    + constructor; [done|]. apply Forall_forall. intros y Hy%H3.
      apply elem_of_cons in Hy as [->|Hy]; [done|]. rewrite Forall_forall in Hf. by apply Hf.
    + constructor; [|done]. intros Hin%H3. apply elem_of_cons in Hin as [->|Hin]; [done|].
      apply StronglySorted_inv in Hs as [_ Hxl]. rewrite Forall_forall in Hxl.
      apply Hx. apply (anti_symm String.le); [by apply Hxl|done].
    + intros y. specialize (H3 y). set_solver.
Qed.

Lemma dedup_spec l :
  StronglySorted String.le l →
  StronglySorted String.le (dedup l) ∧ NoDup (dedup l) ∧ ∀ x, x ∈ dedup l ↔ x ∈ l.
Proof.
  destruct l as [|x l]; simpl; intros Hs.
  - split_and!; [constructor|constructor|done].
  - by apply dedup_go_spec.
Qed.

(** The language list of [new]: sorted, duplicate-free, with the input's elements. *)
Lemma sort_dedup_spec l :
  StronglySorted String.le (dedup (sort l)) ∧ NoDup (dedup (sort l)) ∧
  ∀ x, x ∈ dedup (sort l) ↔ x ∈ l.
Proof.
  assert (Hs : StronglySorted String.le (sort l)).
  { unfold sort. apply StronglySorted_merge_sort; apply _. }
  destruct (dedup_spec (sort l) Hs) as (H1 & H2 & H3).
  split_and!; [done|done|]. intros x. rewrite H3. unfold sort. by rewrite merge_sort_Permutation.
Qed.

Lemma sorted_nodup_unique l1 l2 :
  StronglySorted String.le l1 → NoDup l1 → StronglySorted String.le l2 → NoDup l2 →
  (∀ x, x ∈ l1 ↔ x ∈ l2) → l1 = l2.
Proof.
  intros Hs1 Hn1 Hs2 Hn2 Hx. apply (StronglySorted_unique String.le); [done|done|].
  by apply NoDup_Permutation.
Qed.

Lemma new_languages_ext l l' :
  (∀ x, x ∈ l ↔ x ∈ l') → new l = new l'.
Proof.
  intros Hx. unfold new. f_equal.
  destruct (sort_dedup_spec l) as (H1 & H2 & H3). destruct (sort_dedup_spec l') as (H1' & H2' & H3').
  apply sorted_nodup_unique; try done. intros x. by rewrite H3, H3', Hx.
Qed.

(** C3: [new] dedupes and sorts: [new l] is [new (dedup (sort l))], and
    [new] depends only on the set of input languages, not on their order
    or repetitions.  [new] is a total function: there is no error path. *)
Theorem new_canonical (l : list string) :
  new l = new (dedup (sort l)) ∧
  Translator.languages (new l) = dedup (sort l) ∧
  ∀ l', (∀ x, x ∈ l ↔ x ∈ l') → new l = new l'.
Proof.
  split_and!; [|done|apply new_languages_ext].
  apply new_languages_ext. intros x. destruct (sort_dedup_spec l) as (_ & _ & H). by rewrite H.
Qed.

(** ** The registry invariant *)

(** A stored [Translation] has exactly one template per [LanguageId]. *)
Definition entry_complete (languages : list string) (entry : Translation.t) : Prop :=
  ∀ i : LanguageId, is_Some (Translation.translations entry !! i) ↔ i < length languages.

Definition registry_inv (self : Translator.t) : Prop :=
  NoDup (Translator.languages self) ∧
  ∀ key entry, Translator.translations self !! key = Some entry →
    entry_complete (Translator.languages self) entry.

Lemma process_translations_keys languages acc trs processed :
  process_translations languages acc trs = Ok processed →
  (∀ l, l ∈ trs.*1 → l ∈ languages) ∧
  ∀ i, is_Some (processed !! i) ↔
       is_Some (acc !! i) ∨ ∃ l, l ∈ trs.*1 ∧ position l languages = Some i.
Proof.
  revert acc. induction trs as [|[l m] trs IH]; intros acc Hp; simpl in Hp.
  - simplify_eq. split; [set_solver|]. intros i. set_solver.
  - destruct (position l languages) as [id|] eqn:Hpos; [|done].
    case_bool_decide; [done|].
    destruct (IH _ Hp) as [Hin Hkeys]. split.
    + intros l' Hl'. apply elem_of_cons in Hl' as [->|Hl']; [|by apply Hin].
      apply position_lookup in Hpos. by eapply list_elem_of_lookup_2.
    + intros i. rewrite Hkeys. destruct (decide (i = id)) as [->|Hne].
      * rewrite lookup_insert_eq. split; [|eauto]. intros _. right. exists l. set_solver.
      * rewrite lookup_insert_ne by congruence. split.
        { intros [?|[l' [??]]]; [by left|right; exists l'; set_solver]. }
        intros [?|[l' [Hl' Hp']]]; [by left|].
        apply elem_of_cons in Hl' as [->|Hl']; [simpl in Hp'; congruence|]. right. eauto.
Qed.

(** A map whose keys are all below [n] and which has at least [n] keys
    has exactly the keys [0 .. n-1]. *)
Lemma full_dom (m : gmap nat string) n :
  (∀ i, is_Some (m !! i) → i < n) → n ≤ size m → ∀ i, is_Some (m !! i) ↔ i < n.
Proof.
  intros Hlt Hsize.
  assert (Hsub : dom m ⊆ set_seq 0 n).
  { intros i Hi%elem_of_dom. apply elem_of_set_seq. specialize (Hlt i Hi). lia. }
  assert (Heq : dom m = set_seq 0 n).
  { apply set_subseteq_size_eq; [done|]. by rewrite size_set_seq, size_dom. }
  intros i. rewrite <-elem_of_dom, Heq, elem_of_set_seq. lia.
Qed.

Lemma add_text_inv self key arguments trs :
  registry_inv self → registry_inv (add_text self key arguments trs).1.
Proof.
  intros [Hnd Hent].
  destruct (add_text_cases self key arguments trs)
    as [[_ H]|[[_ [e [_ H]]]|[_ [p [Hp [[_ H]|[Hsize H]]]]]]]; rewrite H; [by split..|].
  split; [done|]. simpl. intros k entry Hk.
  destruct (decide (k = key)) as [->|Hne].
  - rewrite lookup_insert_eq in Hk. simplify_eq. unfold entry_complete. simpl.
    apply full_dom; [|done].
    intros i Hi. apply process_translations_keys in Hp as [_ Hkeys].
    apply Hkeys in Hi as [[? Hi]|[l [_ Hl]]]; [by rewrite lookup_empty in Hi|].
    by eapply position_lt.
  - rewrite lookup_insert_ne in Hk by congruence. by eapply Hent.
Qed.

Lemma new_inv languages : registry_inv (new languages).
Proof.
  split; [apply sort_dedup_spec|]. intros k entry Hk. simpl in Hk. by rewrite lookup_empty in Hk.
Qed.

Lemma reachable_inv self : reachable self → registry_inv self.
Proof.
  intros [languages Hsteps]. pose proof (new_inv languages) as Hinv.
  induction Hsteps as [|x y z Hxy _ IH]; [done|].
  apply IH. destruct Hxy. by apply add_text_inv.
Qed.

Lemma translate_no_panic self key language args :
  registry_inv self → translate self key language args ≠ None.
Proof.
  intros [_ Hent]. unfold translate.
  destruct (Translator.translations self !! key) as [entry|] eqn:Hk; [|done].
  destruct (position language _) as [i|] eqn:Hpos; [|done].
  destruct (Translation.translations entry !! i) eqn:Ht.
  - by repeat case_match.
  - exfalso. apply position_lt in Hpos. apply (Hent key entry Hk i) in Hpos.
    rewrite Ht in Hpos. by destruct Hpos.
Qed.

Lemma greetings_reachable : reachable greetings.
Proof. exists ["pt"; "en"; "it"]. apply rtc_once. constructor. Qed.

(** C8: in every registry a program can build, each stored entry has
    exactly one template per [LanguageId] of [languages] (none outside
    [0 .. length languages - 1]); so once [translate] has found the key
    and resolved the language, the template lookup succeeds and
    [translate] never panics. *)
Theorem registry_templates_complete self :
  reachable self →
  (∀ key entry, Translator.translations self !! key = Some entry →
     ∀ i : LanguageId, is_Some (Translation.translations entry !! i) ↔
                       i < length (Translator.languages self)) ∧
  (∀ key entry language i, Translator.translations self !! key = Some entry →
     position language (Translator.languages self) = Some i →
     is_Some (Translation.translations entry !! i)) ∧
  (∀ key language args, translate self key language args ≠ None).
Proof.
  intros Hr. pose proof (reachable_inv self Hr) as Hinv.
  split_and!.
  - apply Hinv.
  - intros key entry language i Hk Hpos. apply (proj2 Hinv key entry Hk). by eapply position_lt.
  - intros key language args. by apply translate_no_panic.
Qed.

Lemma registry_templates_complete_witness :
  reachable greetings ∧
  (∀ key entry, Translator.translations greetings !! key = Some entry →
     ∀ i : LanguageId, is_Some (Translation.translations entry !! i) ↔
                       i < length (Translator.languages greetings)) ∧
  (∀ key entry language i, Translator.translations greetings !! key = Some entry →
     position language (Translator.languages greetings) = Some i →
     is_Some (Translation.translations entry !! i)) ∧
  (∀ key language args, translate greetings key language args ≠ None).
Proof.
  split; [exact greetings_reachable|].
  exact (registry_templates_complete greetings greetings_reachable).
Defined.

(** ** [MissingLanguage] and coverage *)

(** The languages named by the pairs form a strict subset of [languages]. *)
Definition covers_strict_subset (trs : list (string * string)) (languages : list string) : Prop :=
  (∀ l, l ∈ trs.*1 → l ∈ languages) ∧ ∃ l, l ∈ languages ∧ l ∉ trs.*1.

(** C5 as stated: [MissingLanguage] iff the pairs cover a strict subset. *)
Definition missing_language_iff (self : Translator.t) (key : string) (arguments : list string)
    (trs : list (string * string)) : Prop :=
  (∃ s, (add_text self key arguments trs).2 = Err (MissingLanguage s)) ↔
  covers_strict_subset trs (Translator.languages self).

(** C5 fails: re-adding the existing key "greetings" with no translation
    at all covers a strict subset of the languages, but [add_text] reports
    [DuplicatedKey] first. *)
Lemma missing_language_iff_counterexample :
  ¬ missing_language_iff greetings "greetings" [] [].
Proof.
  intros [_ H]. destruct H as [s Hs].
  - split; [set_solver|]. exists "en". rewrite languages_sorted. split; [left|set_solver].
  - assert (E : (add_text greetings "greetings" [] []).2 = Err (DuplicatedKey "greetings"))
      by (vm_compute; reflexivity).
    rewrite E in Hs. discriminate.
Qed.

Lemma process_translations_ok languages acc trs :
  NoDup languages →
  (∀ l, l ∈ trs.*1 → l ∈ languages) → NoDup trs.*1 →
  (∀ l i, l ∈ trs.*1 → position l languages = Some i → acc !! i = None) →
  ∃ processed, process_translations languages acc trs = Ok processed.
Proof.
  intros Hnd. revert acc. induction trs as [|[l m] trs IH]; intros acc Hin Hnd' Hfree; simpl; [eauto|].
  assert (Hl : l ∈ languages) by (apply Hin; left).
  destruct (position_elem l languages Hl) as [i Hi]. rewrite Hi.
  rewrite bool_decide_eq_false_2; [|rewrite (Hfree l i); [by intros []|left|done]].
  apply NoDup_cons in Hnd' as [Hnotin Hnd'].
  apply IH; [intros l' ?; apply Hin; by right|done|].
  intros l' j Hl' Hj. rewrite lookup_insert_ne.
  - apply (Hfree l' j); [by right|done].
  - intros Heq. subst j. apply Hnotin. by rewrite (position_inj l l' languages i).
Qed.

(** C5, corrected: [MissingLanguage] is only reported when the pairs
    cover a strict subset of the registered languages; conversely, a new
    key whose pairs name each language at most once and cover a strict
    subset of the registered languages gets [MissingLanguage].  (An
    existing key reports [DuplicatedKey] and a repeated or unknown
    language its own error before coverage is checked.) *)
Theorem add_text_missing_language self key arguments trs :
  reachable self →
  (∀ s, (add_text self key arguments trs).2 = Err (MissingLanguage s) →
     covers_strict_subset trs (Translator.languages self)) ∧
  (Translator.translations self !! key = None → NoDup trs.*1 →
   covers_strict_subset trs (Translator.languages self) →
   ∃ s, (add_text self key arguments trs).2 = Err (MissingLanguage s)).
Proof.
  intros Hr. destruct (reachable_inv self Hr) as [Hnd _].
  set (languages := Translator.languages self) in *.
  split.
  - intros s Hs.
    destruct (add_text_cases self key arguments trs)
      as [[_ H]|[[_ [e [He H]]]|[_ [p [Hp [[Hsize H]|[_ H]]]]]]];
      rewrite H in Hs; simplify_eq/=.
    { exfalso. by eapply process_translations_no_missing. }
    apply process_translations_keys in Hp as [Hin Hkeys].
    split; [done|].
    set (D := set_seq 0 (length languages) ∖ dom p : gset nat).
    destruct (decide (D = ∅)) as [HD|HD].
    + exfalso.
      assert (Hsub : set_seq 0 (length languages) ⊆ dom p).
      { intros i Hi. destruct (decide (i ∈ dom p)) as [|Hni]; [done|].
        assert (Hi' : i ∈ D) by (unfold D; set_solver). rewrite HD in Hi'. set_solver. }
      apply subseteq_size in Hsub. rewrite size_set_seq, size_dom in Hsub. unfold languages in *. lia.
    + apply set_choose_L in HD as [i Hi]. unfold D in Hi.
      apply elem_of_difference in Hi as [Hi Hni]. apply elem_of_set_seq in Hi.
      destruct (lookup_lt_is_Some_2 languages i) as [l Hl]; [lia|].
      exists l. split; [by eapply list_elem_of_lookup_2|]. intros Hl'.
      apply Hni, elem_of_dom, Hkeys. right. exists l. split; [done|].
      by apply position_NoDup.
  - intros Hk Hnd' [Hin [l [Hl Hl']]].
    destruct (process_translations_ok languages ∅ trs Hnd Hin Hnd') as [p Hp].
    { intros ????. by rewrite lookup_empty. }
    destruct (add_text_cases self key arguments trs)
      as [[[? Hk'] _]|[[_ [e [He _]]]|[_ [p' [Hp' [[_ H]|[Hsize H]]]]]]].
    + congruence.
    + fold languages in He. congruence.
    + rewrite H. eauto.
    + exfalso. fold languages in Hp', Hsize. rewrite Hp in Hp'. injection Hp' as <-.
      apply process_translations_keys in Hp as [_ Hkeys].
      destruct (position_elem l languages Hl) as [i Hi].
      assert (Hsub : dom p ⊂ set_seq 0 (length languages)).
      { split.
        - intros j Hj%elem_of_dom. apply elem_of_set_seq.
          apply Hkeys in Hj as [[? Hj]|[l' [_ Hj]]]; [by rewrite lookup_empty in Hj|].
          apply position_lt in Hj. lia.
        - intros Hsup. assert (Hi' : i ∈ dom p).
          { apply Hsup, elem_of_set_seq. apply position_lt in Hi. lia. }
          apply elem_of_dom, Hkeys in Hi' as [[? Hi']|[l' [Hl'' Hi']]];
            [by rewrite lookup_empty in Hi'|].
          apply Hl'. by rewrite (position_inj l l' languages i). }
      apply subset_size in Hsub. rewrite size_set_seq, size_dom in Hsub. unfold languages in *. lia.
Qed.

Lemma add_text_missing_language_witness :
  reachable greetings ∧
  (∀ s, (add_text greetings "bye" [] [("en", "Bye")]).2 = Err (MissingLanguage s) →
     covers_strict_subset [("en", "Bye")] (Translator.languages greetings)) ∧
  (Translator.translations greetings !! "bye" = None → NoDup [("en", "Bye")].*1 →
   covers_strict_subset [("en", "Bye")] (Translator.languages greetings) →
   ∃ s, (add_text greetings "bye" [] [("en", "Bye")]).2 = Err (MissingLanguage s)).
Proof.
  split; [exact greetings_reachable|].
  exact (add_text_missing_language greetings "bye" [] [("en", "Bye")] greetings_reachable).
Defined.

(** ** The validation order of [translate] *)

Lemma check_args_app declared arguments values pre rest :
  Forall (λ b, b.1 ∈ declared) pre → NoDup pre.*1 → (∀ x, x ∈ pre.*1 → x ∉ arguments) →
  check_args declared arguments values (pre ++ rest) =
  check_args declared (arguments ++ pre.*1) (values ++ pre.*2) rest.
Proof.
  revert arguments values.
  induction pre as [|[a v] pre IH]; intros arguments values Hdecl Hnd Hfresh; simpl.
  { by rewrite !app_nil_r. }
  apply Forall_cons in Hdecl as [Ha Hdecl]. apply NoDup_cons in Hnd as [Hapre Hnd].
  rewrite bool_decide_eq_true_2 by done.
  rewrite bool_decide_eq_false_2 by (apply Hfresh; left).
  rewrite IH; [by rewrite <-!app_assoc|done|done|].
  intros x Hx. rewrite elem_of_app, list_elem_of_singleton.
  intros [Hx' | ->]; [|done]. apply (Hfresh x); [by right|done].
Qed.

(** C7: [translate] checks in a fixed order and reports the first
    failure: an absent key gives [MissingKey]; otherwise an unregistered
    language gives [UnknownLanguage]; otherwise the bindings are scanned
    in order, and the first binding whose name is undeclared gives
    [UnknownArgument], or whose name occurred earlier gives
    [DuplicatedArgument]. *)
Theorem translate_error_order self key language args :
  reachable self →
  (Translator.translations self !! key = None →
     translate self key language args = Some (Err (MissingKey key))) ∧
  (∀ entry, Translator.translations self !! key = Some entry →
     language ∉ Translator.languages self →
     translate self key language args = Some (Err (UnknownLanguage language))) ∧
  (∀ entry pre n v post, Translator.translations self !! key = Some entry →
     language ∈ Translator.languages self →
     args = pre ++ (n, v) :: post →
     Forall (λ b, b.1 ∈ Translation.arguments entry) pre → NoDup pre.*1 →
     (n ∉ Translation.arguments entry →
        translate self key language args = Some (Err (UnknownArgument n))) ∧
     (n ∈ Translation.arguments entry → n ∈ pre.*1 →
        translate self key language args = Some (Err (DuplicatedArgument n)))).
Proof.
  intros Hr. destruct (registry_templates_complete self Hr) as (_ & Htpl & _).
  unfold translate. split_and!.
  - by intros ->.
  - intros entry Hk Hl. rewrite Hk. apply position_None in Hl. by rewrite Hl.
  - intros entry pre n v post Hk Hl -> Hdecl Hnd.
    destruct (position_elem language _ Hl) as [i Hi].
    destruct (Htpl key entry language i Hk Hi) as [tpl Htpl'].
    rewrite Hk, Hi, Htpl'.
    rewrite check_args_app by set_solver. simpl.
    split; intros Hn.
    + by rewrite bool_decide_eq_false_2.
    + intros Hpre. rewrite bool_decide_eq_true_2 by done. by rewrite bool_decide_eq_true_2.
Qed.

Lemma translate_error_order_witness :
  reachable greetings ∧
  translate greetings "greetings" "pt" [("NAME", "Julian"); ("NAME", "Kyle")]
    = Some (Err (DuplicatedArgument "NAME")).
Proof.
  split; [exact greetings_reachable|].
  destruct (translate_error_order greetings "greetings" "pt"
              [("NAME", "Julian"); ("NAME", "Kyle")] greetings_reachable) as (_ & _ & H).
  apply (H (Translation.mk ["NAME"]
              (<[2 := "Bom dia, NAME!"]> (<[1 := "Buongiorno, NAME!"]>
                 (<[0 := "Good morning, NAME!"]> ∅))))
           [("NAME", "Julian")] "NAME" "Kyle" []).
  - vm_compute. reflexivity.
  - rewrite languages_sorted. set_solver.
  - reflexivity.
  - repeat constructor.
  - repeat constructor. set_solver.
  - set_solver.
  - set_solver.
Defined.

(** ** The replace pass *)

Lemma best_match_go_spec best pats buf :
  best_match_go best pats buf = best ∨
  ∃ p v, best_match_go best pats buf = Some (p, v) ∧ (p, v) ∈ pats ∧ suffix p buf.
Proof.
  revert best. induction pats as [|[p v] pats IH]; intros best; simpl; [by left|].
  destruct (bool_decide (suffix p buf) && longer best p) eqn:Hc.
  - apply andb_prop in Hc as [Hs _]. apply bool_decide_eq_true_1 in Hs.
    right. destruct (IH (Some (p, v))) as [->|(p' & v' & H1 & H2 & H3)].
    + exists p, v. split_and!; [done|left|done].
    + exists p', v'. split_and!; [done|by right|done].
  - destruct (IH best) as [->|(p' & v' & H1 & H2 & H3)]; [by left|].
    right. exists p', v'. split_and!; [done|by right|done].
Qed.

Lemma best_match_Some pats buf p v :
  best_match pats buf = Some (p, v) → (p, v) ∈ pats ∧ suffix p buf.
Proof.
  unfold best_match. intros H.
  destruct (best_match_go_spec None pats buf) as [E|(p' & v' & H1 & H2 & H3)];
    [congruence|].
  rewrite H in H1. by injection H1 as -> ->.
Qed.

Lemma best_match_go_None best pats buf :
  best_match_go best pats buf = None →
  best = None ∧ ∀ p v, (p, v) ∈ pats → ¬ suffix p buf.
Proof.
  revert best. induction pats as [|[p v] pats IH]; intros best H; simpl in H.
  { split; [done|]. intros p v Hin. by apply elem_of_nil in Hin. }
  apply IH in H as [Hb Hrest].
  destruct (bool_decide (suffix p buf) && longer best p) eqn:Hc; [done|].
  subst best. split; [done|]. intros p' v' Hin Hs.
  apply elem_of_cons in Hin as [Heq|Hin]; [|by eapply Hrest].
  injection Heq as -> ->. simpl in Hc.
  rewrite bool_decide_eq_true_2 in Hc by done. discriminate.
Qed.

Lemma best_match_None pats buf :
  best_match pats buf = None → ∀ p v, (p, v) ∈ pats → ¬ suffix p buf.
Proof. intros H. by apply best_match_go_None in H as [_ H]. Qed.

Lemma take_before_suffix (x p : bytes) :
  take (length (x ++ p) - length p) (x ++ p) = x.
Proof. rewrite length_app, Nat.add_sub. apply take_app_length. Qed.

Lemma replace_go_id pats buf rest :
  (∀ p v, (p, v) ∈ pats → v = p) → replace_go pats buf rest = buf ++ rest.
Proof.
  intros Hid. revert buf. induction rest as [|c r IH]; intros buf; simpl.
  { by rewrite app_nil_r. }
  destruct (best_match pats (buf ++ [c])) as [[p v]|] eqn:Hb.
  - apply best_match_Some in Hb as [Hin [x Hx]].
    rewrite (Hid p v Hin), Hx, take_before_suffix, IH, app_nil_l.
    by rewrite app_assoc, <-Hx, <-app_assoc.
  - by rewrite IH, <-app_assoc.
Qed.

Lemma replace_empty_nil hay : replace_empty [] hay = hay.
Proof. induction hay as [|c r IH]; simpl; [done|by rewrite IH]. Qed.

Lemma try_replace_all_id pats hay :
  (∀ p v, (p, v) ∈ pats → v = p) → try_replace_all pats hay = hay.
Proof.
  intros Hid. unfold try_replace_all.
  destruct (best_match pats []) as [[p v]|] eqn:Hb.
  - apply best_match_Some in Hb as [Hin Hs%suffix_nil_inv]. subst p.
    rewrite (Hid [] v Hin). apply replace_empty_nil.
  - apply replace_go_id, Hid.
Qed.

(** The (pattern, value) pairs [translate] hands to the automaton. *)
Definition bind_pats (args : list (string * string)) : list (bytes * bytes) :=
  map (λ b, (as_bytes b.1, as_bytes b.2)) args.

Lemma zip_bind_pats args :
  zip (map as_bytes args.*1) (map as_bytes args.*2) = bind_pats args.
Proof. induction args as [|[n v] args IH]; [done|]. simpl. f_equal. exact IH. Qed.

Lemma elem_of_bind_pats args p w :
  (p, w) ∈ bind_pats args ↔ ∃ n v, (n, v) ∈ args ∧ p = as_bytes n ∧ w = as_bytes v.
Proof.
  unfold bind_pats. rewrite list_elem_of_In, in_map_iff. split.
  - intros ([n v] & Heq & Hin). injection Heq as <- <-. exists n, v.
    split_and!; [by apply list_elem_of_In|done|done].
  - intros (n & v & Hin & -> & ->). exists (n, v). split; [done|by apply list_elem_of_In].
Qed.

Lemma check_args_ok declared args :
  Forall (λ b, b.1 ∈ declared) args → NoDup args.*1 →
  check_args declared [] [] args = Ok (args.*1, args.*2).
Proof.
  intros Hdecl Hnd. rewrite <-(app_nil_r args) at 1.
  rewrite check_args_app by set_solver. done.
Qed.

(** [translate] on a found template and validated bindings. *)
Lemma translate_ok self key language args entry i tpl :
  Translator.translations self !! key = Some entry →
  position language (Translator.languages self) = Some i →
  Translation.translations entry !! i = Some tpl →
  Forall (λ b, b.1 ∈ Translation.arguments entry) args → NoDup args.*1 →
  translate self key language args =
    Some (Ok (from_bytes (try_replace_all (bind_pats args) (as_bytes tpl)))).
Proof.
  intros Hk Hi Ht Hdecl Hnd. unfold translate.
  rewrite Hk, Hi, Ht, check_args_ok by done. cbv beta iota. by rewrite zip_bind_pats.
Qed.

Definition hello : Translator.t :=
  (add_text (new ["en"]) "hello" ["NAME"] [("en", "Hello, NAME!")]).1.

Definition hello_entry : Translation.t :=
  Translation.mk ["NAME"] (<[0 := "Hello, NAME!"]> ∅).

(** ** What the pass replaces *)

Definition infix (p s : bytes) : Prop := ∃ x y, s = x ++ p ++ y.

(** A segment of the scan: the unmatched gap, then the matched pattern and
    its value.  [seg_src] is its text in the template, [seg_out] in the output. *)
Definition seg_src (sg : bytes * (bytes * bytes)) : bytes := sg.1 ++ sg.2.1.
Definition seg_out (sg : bytes * (bytes * bytes)) : bytes := sg.1 ++ sg.2.2.

Definition no_pattern_in (pats : list (bytes * bytes)) (s : bytes) : Prop :=
  ∀ p v, (p, v) ∈ pats → ¬ infix p s.

Lemma infix_nil p : infix p [] → p = [].
Proof. intros (x & y & H). symmetry in H. apply app_eq_nil in H as [_ H]. by apply app_eq_nil in H as [-> _]. Qed.

Lemma infix_snoc p buf c : infix p (buf ++ [c]) → infix p buf ∨ suffix p (buf ++ [c]).
Proof.
  intros (x & y & H). destruct y as [|d y _] using rev_ind.
  - right. exists x. by rewrite H, app_nil_r.
  - left. rewrite !app_assoc in H. apply app_inj_tail in H as [H _].
    exists x, y. by rewrite H, <-app_assoc.
Qed.

Lemma no_pattern_in_nil pats :
  Forall (λ pv, pv.1 ≠ []) pats → no_pattern_in pats [].
Proof.
  intros Hne p v Hin Hinf%infix_nil. rewrite Forall_forall in Hne. by apply (Hne (p, v)).
Qed.

Lemma replace_go_decomp pats buf rest :
  ∃ segs g,
    buf ++ rest = concat (map seg_src segs) ++ g ∧
    replace_go pats buf rest = concat (map seg_out segs) ++ g ∧
    Forall (λ sg, sg.2 ∈ pats) segs ∧
    (Forall (λ pv, pv.1 ≠ []) pats → no_pattern_in pats buf →
       no_pattern_in pats g ∧
       Forall (λ sg, no_pattern_in pats (sg.1 ++ removelast sg.2.1)) segs).
Proof.
  revert buf. induction rest as [|c r IH]; intros buf.
  { exists [], buf. simpl. rewrite app_nil_r. split_and!; [done..|]. intros _ H. by split. }
  destruct (best_match pats (buf ++ [c])) as [[p v]|] eqn:Hb.
  - pose proof (best_match_Some _ _ _ _ Hb) as [Hin [x Hx]].
    destruct (IH []) as (segs & g & H1 & H2 & H3 & H4).
    exists ((x, (p, v)) :: segs), g. split_and!.
    + simpl in H1 |- *. unfold seg_src at 1. simpl.
      rewrite <-!app_assoc, <-H1, app_assoc, <-Hx, <-app_assoc. done.
    + simpl. rewrite Hb, Hx, take_before_suffix, H2. unfold seg_out at 2. simpl.
      by rewrite <-!app_assoc.
    + by constructor.
    + intros Hne Hbuf. destruct (H4 Hne (no_pattern_in_nil pats Hne)) as [Hg Hsegs].
      split; [done|]. constructor; [|done]. simpl.
      assert (Hp : p ≠ []) by (rewrite Forall_forall in Hne; exact (Hne (p, v) Hin)).
      rewrite <-removelast_app by done. rewrite <-Hx, removelast_last. done.
  - destruct (IH (buf ++ [c])) as (segs & g & H1 & H2 & H3 & H4).
    exists segs, g. split_and!.
    + by rewrite <-H1, <-app_assoc.
    + simpl. by rewrite Hb.
    + done.
    + intros Hne Hbuf. apply H4; [done|].
      intros p' v' Hin Hinf. apply infix_snoc in Hinf as [Hinf|Hs].
      * by apply (Hbuf p' v').
      * by apply (best_match_None _ _ Hb p' v').
Qed.

Lemma replace_empty_decomp (v hay : bytes) :
  hay = concat (map seg_src (map (λ c, ([c], ([] : bytes, v))) hay)) ∧
  replace_empty v hay = v ++ concat (map seg_out (map (λ c, ([c], ([] : bytes, v))) hay)).
Proof.
  induction hay as [|c r [IH1 IH2]]; simpl; [by rewrite app_nil_r|].
  unfold seg_src at 1, seg_out at 1. simpl. split; [by f_equal|].
  by rewrite IH2.
Qed.

Lemma try_replace_all_decomp pats hay :
  ∃ segs g,
    hay = concat (map seg_src segs) ++ g ∧
    try_replace_all pats hay = concat (map seg_out segs) ++ g ∧
    Forall (λ sg, sg.2 ∈ pats) segs ∧
    (Forall (λ pv, pv.1 ≠ []) pats →
       no_pattern_in pats g ∧
       Forall (λ sg, no_pattern_in pats (sg.1 ++ removelast sg.2.1)) segs).
Proof.
  unfold try_replace_all.
  destruct (best_match pats []) as [[p v]|] eqn:Hb.
  - apply best_match_Some in Hb as [Hin Hs%suffix_nil_inv]. subst p.
    destruct (replace_empty_decomp v hay) as [H1 H2].
    exists (([], ([], v)) :: map (λ c, ([c], ([] : bytes, v))) hay), [].
    split_and!.
    + by rewrite app_nil_r.
    + rewrite app_nil_r, H2. done.
    + constructor; [done|]. apply Forall_map, Forall_forall. by intros c _.
    + intros Hne. exfalso. rewrite Forall_forall in Hne. by apply (Hne ([], v)).
  - destruct (replace_go_decomp pats [] hay) as (segs & g & H1 & H2 & H3 & H4).
    exists segs, g. split_and!; [done|done|done|].
    intros Hne. apply H4; [done|]. by apply no_pattern_in_nil.
Qed.

Definition no_bound_name_in (args : list (string * string)) (s : bytes) : Prop :=
  ∀ n v, (n, v) ∈ args → ¬ infix (as_bytes n) s.

Lemma no_pattern_in_bind_pats args s :
  no_pattern_in (bind_pats args) s → no_bound_name_in args s.
Proof.
  intros H n v Hin. apply (H (as_bytes n) (as_bytes v)), elem_of_bind_pats. eauto.
Qed.

Lemma bind_pats_nonempty args :
  Forall (λ b, b.1 ≠ "") args → Forall (λ pv, pv.1 ≠ []) (bind_pats args).
Proof.
  intros Hne. apply Forall_forall. intros [p w] (n & v & Hin & -> & ->)%elem_of_bind_pats.
  rewrite Forall_forall in Hne. specialize (Hne (n, v) Hin). simpl in *.
  destruct n; [done|discriminate].
Qed.

Lemma as_bytes_from_bytes b : as_bytes (from_bytes b) = b.
Proof. apply list_ascii_of_string_of_list_ascii. Qed.

(** C1, corrected: for a found key, a registered language and declared,
    duplicate-free bindings, [translate] succeeds, and its output is the
    template cut into (gap, bound name) segments plus a final gap, with
    each matched name replaced by exactly its bound value.  When no bound
    name is empty, the scan matches at the earliest end: no bound name
    occurs in the final gap, nor in a gap together with its match short of
    the match's last byte.  The values are copied verbatim and never
    scanned, so the output may still contain bound names. *)
Theorem translate_replaces_bound self key language args entry i :
  reachable self →
  Translator.translations self !! key = Some entry →
  position language (Translator.languages self) = Some i →
  Forall (λ b, b.1 ∈ Translation.arguments entry) args → NoDup args.*1 →
  ∃ tpl out,
    Translation.translations entry !! i = Some tpl ∧
    translate self key language args = Some (Ok out) ∧
    ∃ segs g,
      as_bytes tpl = concat (map seg_src segs) ++ g ∧
      as_bytes out = concat (map seg_out segs) ++ g ∧
      Forall (λ sg, ∃ n v, (n, v) ∈ args ∧ sg.2 = (as_bytes n, as_bytes v)) segs ∧
      (Forall (λ b, b.1 ≠ "") args →
         no_bound_name_in args g ∧
         Forall (λ sg, no_bound_name_in args (sg.1 ++ removelast sg.2.1)) segs).
Proof.
  intros Hr Hk Hi Hdecl Hnd.
  destruct (registry_templates_complete self Hr) as (_ & Htpl & _).
  destruct (Htpl key entry language i Hk Hi) as [tpl Ht].
  destruct (try_replace_all_decomp (bind_pats args) (as_bytes tpl))
    as (segs & g & H1 & H2 & H3 & H4).
  exists tpl, (from_bytes (try_replace_all (bind_pats args) (as_bytes tpl))).
  split_and!; [done|by apply (translate_ok self key language args entry i tpl)|].
  exists segs, g. split_and!.
  - done.
  - by rewrite as_bytes_from_bytes.
  - eapply Forall_impl; [exact H3|]. intros [gap [p w]] Hin%elem_of_bind_pats.
    destruct Hin as (n & v & Hin & -> & ->). eauto.
  - intros Hne. destruct (H4 (bind_pats_nonempty args Hne)) as [Hg Hsegs].
    split; [by apply no_pattern_in_bind_pats|].
    eapply Forall_impl; [exact Hsegs|]. intros sg. apply no_pattern_in_bind_pats.
Qed.

Lemma hello_reachable : reachable hello.
Proof. exists ["en"]. apply rtc_once. constructor. Qed.

Lemma translate_replaces_bound_witness :
  reachable hello ∧
  ∃ tpl out,
    Translation.translations hello_entry !! 0 = Some tpl ∧
    translate hello "hello" "en" [("NAME", "Julian")] = Some (Ok out) ∧
    ∃ segs g,
      as_bytes tpl = concat (map seg_src segs) ++ g ∧
      as_bytes out = concat (map seg_out segs) ++ g ∧
      Forall (λ sg, ∃ n v, (n, v) ∈ [("NAME", "Julian")] ∧ sg.2 = (as_bytes n, as_bytes v)) segs ∧
      (Forall (λ b, b.1 ≠ "") [("NAME", "Julian")] →
         no_bound_name_in [("NAME", "Julian")] g ∧
         Forall (λ sg, no_bound_name_in [("NAME", "Julian")] (sg.1 ++ removelast sg.2.1)) segs).
Proof.
  split; [exact hello_reachable|].
  apply (translate_replaces_bound hello "hello" "en" [("NAME", "Julian")] hello_entry 0
           hello_reachable).
  - vm_compute. reflexivity.
  - vm_compute. reflexivity.
  - repeat constructor.
  - repeat constructor. set_solver.
Defined.

(** C1 as stated fails: with the binding NAME -> "NAME" (declared, no
    duplicate) the output "Hello, NAME!" still contains the bound name. *)
Lemma translate_replaces_bound_counterexample :
  reachable hello ∧
  Translator.translations hello !! "hello" = Some hello_entry ∧
  "en" ∈ Translator.languages hello ∧
  Forall (λ b, b.1 ∈ Translation.arguments hello_entry) [("NAME", "NAME")] ∧
  NoDup [("NAME", "NAME")].*1 ∧
  translate hello "hello" "en" [("NAME", "NAME")] = Some (Ok "Hello, NAME!") ∧
  infix (as_bytes "NAME") (as_bytes "Hello, NAME!").
Proof.
  split_and!.
  - exact hello_reachable.
  - vm_compute. reflexivity.
  - vm_compute. left.
  - repeat constructor.
  - repeat constructor. set_solver.
  - vm_compute. reflexivity.
  - exists (as_bytes "Hello, "), (as_bytes "!"). reflexivity.
Qed.

(** * Further properties of [new], [add_text] and [translate] *)

Lemma from_bytes_as_bytes s : from_bytes (as_bytes s) = s.
Proof. apply string_of_list_ascii_of_string. Qed.

Lemma try_replace_all_nil hay : try_replace_all [] hay = hay.
Proof. apply try_replace_all_id. intros p v Hin. by apply elem_of_nil in Hin. Qed.

Definition greetings_entry : Translation.t :=
  Translation.mk ["NAME"]
    (<[2 := "Bom dia, NAME!"]> (<[1 := "Buongiorno, NAME!"]>
       (<[0 := "Good morning, NAME!"]> ∅))).

(** [translate] with no bindings returns the selected template as it is. *)
Theorem translate_no_bindings self key language entry i tpl :
  Translator.translations self !! key = Some entry →
  position language (Translator.languages self) = Some i →
  Translation.translations entry !! i = Some tpl →
  translate self key language [] = Some (Ok tpl).
Proof.
  intros Hk Hi Ht.
  rewrite (translate_ok self key language [] entry i tpl Hk Hi Ht); [|constructor|constructor].
  by rewrite try_replace_all_nil, from_bytes_as_bytes.
Qed.

Lemma translate_no_bindings_witness :
  translate greetings "greetings" "pt" [] = Some (Ok "Bom dia, NAME!").
Proof.
  apply (translate_no_bindings greetings "greetings" "pt" greetings_entry 2).
  - vm_compute. reflexivity.
  - vm_compute. reflexivity.
  - vm_compute. reflexivity.
Defined.

Lemma replace_go_untouched pats buf rest :
  no_pattern_in pats (buf ++ rest) → replace_go pats buf rest = buf ++ rest.
Proof.
  revert buf. induction rest as [|c r IH]; intros buf Hno; simpl.
  { by rewrite app_nil_r. }
  destruct (best_match pats (buf ++ [c])) as [[p v]|] eqn:Hb.
  - apply best_match_Some in Hb as [Hin [x Hx]]. exfalso.
    apply (Hno p v Hin). exists x, r. by rewrite app_assoc, <-Hx, <-app_assoc.
  - rewrite IH; [by rewrite <-app_assoc|]. by rewrite <-app_assoc.
Qed.

(** When no bound placeholder name occurs in the selected template,
    [translate] returns the template unchanged. *)
Theorem translate_no_occurrence self key language args entry i tpl :
  Translator.translations self !! key = Some entry →
  position language (Translator.languages self) = Some i →
  Translation.translations entry !! i = Some tpl →
  Forall (λ b, b.1 ∈ Translation.arguments entry) args → NoDup args.*1 →
  no_bound_name_in args (as_bytes tpl) →
  translate self key language args = Some (Ok tpl).
Proof.
  intros Hk Hi Ht Hdecl Hnd Hno.
  rewrite (translate_ok self key language args entry i tpl) by done.
  assert (Hno' : no_pattern_in (bind_pats args) (as_bytes tpl)).
  { intros p w (n & v & Hin & -> & ->)%elem_of_bind_pats. by apply (Hno n v). }
  unfold try_replace_all.
  destruct (best_match (bind_pats args) []) as [[p v]|] eqn:Hb.
  - apply best_match_Some in Hb as [Hin Hs%suffix_nil_inv]. subst p. exfalso.
    apply (Hno' [] v Hin). exists [], (as_bytes tpl). done.
  - rewrite replace_go_untouched by done. simpl. by rewrite from_bytes_as_bytes.
Qed.

Definition plain : Translator.t :=
  (add_text (new ["en"]) "plain" ["NAME"] [("en", "Hi there")]).1.

Lemma translate_no_occurrence_witness :
  translate plain "plain" "en" [("NAME", "Julian")] = Some (Ok "Hi there").
Proof.
  apply (translate_no_occurrence plain "plain" "en" [("NAME", "Julian")]
           (Translation.mk ["NAME"] (<[0 := "Hi there"]> ∅)) 0).
  - vm_compute. reflexivity.
  - vm_compute. reflexivity.
  - vm_compute. reflexivity.
  - repeat constructor.
  - repeat constructor. set_solver.
  - intros n v Hin%list_elem_of_singleton. simplify_eq.
    intros (x & y & H).
    assert (HN : ("N"%char : ascii) ∈ as_bytes "Hi there").
    { rewrite H. apply elem_of_app. right. left. }
    revert HN. vm_compute. set_solver.
Defined.

Lemma process_translations_mono languages acc trs processed :
  process_translations languages acc trs = Ok processed → acc ⊆ processed.
Proof.
  revert acc. induction trs as [|[l m] trs IH]; intros acc Hp; simpl in Hp.
  { by simplify_eq. }
  destruct (position l languages) as [i|]; [|done].
  case_bool_decide as Hd; [done|]. apply IH in Hp.
  etrans; [|exact Hp]. apply insert_subseteq. by apply eq_None_not_Some.
Qed.

Lemma process_translations_lookup languages acc trs processed l m i :
  process_translations languages acc trs = Ok processed →
  (l, m) ∈ trs → position l languages = Some i → processed !! i = Some m.
Proof.
  revert acc. induction trs as [|[l' m'] trs IH]; intros acc Hp Hin Hi; simpl in Hp.
  { by apply elem_of_nil in Hin. }
  destruct (position l' languages) as [j|] eqn:Hj; [|done].
  case_bool_decide as Hd; [done|].
  apply elem_of_cons in Hin as [Heq|Hin]; [|by eapply IH].
  injection Heq as -> ->. rewrite Hi in Hj. injection Hj as <-.
  apply process_translations_mono in Hp. eapply lookup_weaken; [|exact Hp].
  apply lookup_insert_eq.
Qed.

(** Round trip: after [add_text key _ trs] succeeds, [translate key lang []]
    returns exactly the template that [trs] gave for [lang]. *)
Theorem add_text_translate_roundtrip self key arguments trs self' language msg :
  add_text self key arguments trs = (self', Ok tt) → (language, msg) ∈ trs →
  translate self' key language [] = Some (Ok msg).
Proof.
  intros Hadd Hin.
  destruct (add_text_cases self key arguments trs)
    as [[_ H]|[[_ [e [_ H]]]|[_ [p [Hp [[_ H]|[_ H]]]]]]];
    rewrite Hadd in H; simplify_eq/=.
  pose proof (process_translations_keys _ _ _ _ Hp) as [Hreg _].
  destruct (position_elem language (Translator.languages self)) as [i Hi].
  { apply Hreg. apply list_elem_of_fmap. by exists (language, msg). }
  unfold translate. simpl. rewrite lookup_insert_eq, Hi.
  cbn [Translation.translations]. rewrite (process_translations_lookup _ _ _ _ language msg i Hp Hin Hi).
  simpl. by rewrite try_replace_all_nil, from_bytes_as_bytes.
Qed.

Lemma add_text_translate_roundtrip_witness :
  translate greetings "greetings" "it" [] = Some (Ok "Buongiorno, NAME!").
Proof.
  apply (add_text_translate_roundtrip (new ["pt"; "en"; "it"]) "greetings" ["NAME"]
           [("en", "Good morning, NAME!"); ("pt", "Bom dia, NAME!"); ("it", "Buongiorno, NAME!")]).
  - vm_compute. reflexivity.
  - right. right. left.
Defined.

(** [add_text key] does not change what [translate] returns for any other key. *)
Theorem add_text_other_key self key arguments trs key' language args :
  key' ≠ key →
  translate (add_text self key arguments trs).1 key' language args = translate self key' language args.
Proof.
  intros Hne.
  destruct (add_text_cases self key arguments trs)
    as [[_ H]|[[_ [e [_ H]]]|[_ [p [_ [[_ H]|[_ H]]]]]]]; rewrite H; [done..|].
  unfold translate. simpl. by rewrite lookup_insert_ne by congruence.
Qed.

Lemma add_text_other_key_witness :
  ("greetings" : string) ≠ "bye" ∧
  translate (add_text greetings "bye" [] [("en", "Bye"); ("it", "Ciao"); ("pt", "Tchau")]).1
    "greetings" "pt" [("NAME", "Julian")] =
  translate greetings "greetings" "pt" [("NAME", "Julian")].
Proof.
  assert (Hne : ("greetings" : string) ≠ "bye") by discriminate.
  split; [exact Hne|]. exact (add_text_other_key greetings "bye" [] _ "greetings" "pt" _ Hne).
Defined.

Lemma process_translations_app languages acc pre rest :
  (∀ l, l ∈ pre.*1 → l ∈ languages) → NoDup pre.*1 →
  (∀ l i, l ∈ pre.*1 → position l languages = Some i → acc !! i = None) →
  ∃ acc', process_translations languages acc (pre ++ rest) =
          process_translations languages acc' rest ∧ acc ⊆ acc' ∧
    ∀ l i, l ∈ pre.*1 → position l languages = Some i → is_Some (acc' !! i).
Proof.
  revert acc. induction pre as [|[a b] pre IH]; intros acc Hin Hnd Hfree; simpl.
  { exists acc. split_and!; [done|done|]. intros l i Hl. by apply elem_of_nil in Hl. }
  assert (Ha : a ∈ languages) by (apply Hin; left).
  destruct (position_elem a languages Ha) as [j Hj]. rewrite Hj.
  assert (Hacc : acc !! j = None) by (apply (Hfree a j); [left|done]).
  rewrite bool_decide_eq_false_2 by (rewrite Hacc; by intros []).
  apply NoDup_cons in Hnd as [Hnotin Hnd].
  destruct (IH (<[j := b]> acc)) as (acc' & Heq & Hsub & Hkeys).
  - intros l Hl. apply Hin. by right.
  - done.
  - intros l i Hl Hi. rewrite lookup_insert_ne.
    + apply (Hfree l i); [by right|done].
    + intros Heq. subst j. apply Hnotin. by rewrite (position_inj a l languages i).
  - exists acc'. split_and!; [done| |].
    + etrans; [|exact Hsub]. by apply insert_subseteq.
    + intros l i Hl Hi. apply elem_of_cons in Hl as [->|Hl]; [|by eapply Hkeys].
      rewrite Hj in Hi. injection Hi as <-. eapply lookup_weaken_is_Some; [|exact Hsub].
      rewrite lookup_insert_eq. eauto.
Qed.

(** [add_text] on a new key checks the pairs in order: the first pair
    whose language is not registered gives [UnknownLanguage] with that
    language; the first pair whose language occurred earlier gives
    [DuplicatedKey] with that language (not with the key). *)
Theorem add_text_pair_error_order self key arguments trs pre l m post :
  Translator.translations self !! key = None →
  trs = pre ++ (l, m) :: post →
  (∀ l', l' ∈ pre.*1 → l' ∈ Translator.languages self) → NoDup pre.*1 →
  (l ∉ Translator.languages self →
     add_text self key arguments trs = (self, Err (UnknownLanguage l))) ∧
  (l ∈ pre.*1 → add_text self key arguments trs = (self, Err (DuplicatedKey l))).
Proof.
  intros Hk -> Hin Hnd.
  destruct (process_translations_app (Translator.languages self) ∅ pre ((l, m) :: post) Hin Hnd)
    as (acc' & Heq & _ & Hkeys).
  { intros ????. by rewrite lookup_empty. }
  unfold add_text. rewrite bool_decide_eq_false_2 by (rewrite Hk; by intros []).
  rewrite Heq. simpl. split.
  - intros Hl. apply position_None in Hl. by rewrite Hl.
  - intros Hl. assert (Hreg : l ∈ Translator.languages self) by (by apply Hin).
    destruct (position_elem l _ Hreg) as [i Hi]. rewrite Hi.
    by rewrite bool_decide_eq_true_2 by (by apply (Hkeys l i)).
Qed.

Lemma add_text_pair_error_order_witness :
  add_text greetings "bye" [] [("en", "Bye"); ("en", "Bye!")]
    = (greetings, Err (DuplicatedKey "en")).
Proof.
  destruct (add_text_pair_error_order greetings "bye" [] [("en", "Bye"); ("en", "Bye!")]
              [("en", "Bye")] "en" "Bye!" []) as [_ H].
  - vm_compute. reflexivity.
  - reflexivity.
  - intros l' Hl'. apply list_elem_of_singleton in Hl'. subst l'. vm_compute. left.
  - repeat constructor. set_solver.
  - apply H. left.
Defined.

(** A stored language id in [processed] excludes that id for every later pair. *)
Lemma process_translations_taken languages acc trs processed i :
  process_translations languages acc trs = Ok processed →
  is_Some (acc !! i) → ∀ l, l ∈ trs.*1 → position l languages ≠ Some i.
Proof.
  revert acc. induction trs as [|[a b] trs IH]; intros acc Hp Hi l Hl Hpos; simpl in Hp, Hl.
  { by apply elem_of_nil in Hl. }
  destruct (position a languages) as [j|] eqn:Hj; [|done].
  case_bool_decide as Hd; [done|].
  apply elem_of_cons in Hl as [Hla|Hl].
  - subst l. rewrite Hj in Hpos. injection Hpos as ->. by apply Hd.
  - apply (IH _ Hp) with l; [|done|done].
    destruct (decide (i = j)) as [->|Hne]; [rewrite lookup_insert_eq; eauto|].
    by rewrite lookup_insert_ne by congruence.
Qed.

Lemma process_translations_NoDup languages acc trs processed :
  process_translations languages acc trs = Ok processed → NoDup trs.*1.
Proof.
  revert acc. induction trs as [|[a b] trs IH]; intros acc Hp; simpl in Hp; [constructor|].
  destruct (position a languages) as [j|] eqn:Hj; [|done].
  case_bool_decide as Hd; [done|]. simpl. constructor; [|by eapply IH].
  intros Ha. apply (process_translations_taken _ _ _ _ j Hp) with a; [|done|done].
  rewrite lookup_insert_eq. eauto.
Qed.

(** [add_text] succeeds on a reachable registry exactly when the key is
    new and the pairs name every registered language once and nothing else. *)
Theorem add_text_ok_iff self key arguments trs :
  reachable self →
  (add_text self key arguments trs).2 = Ok tt ↔
  Translator.translations self !! key = None ∧
  (∀ l, l ∈ trs.*1 → l ∈ Translator.languages self) ∧ NoDup trs.*1 ∧
  (∀ l, l ∈ Translator.languages self → l ∈ trs.*1).
Proof.
  intros Hr. destruct (reachable_inv self Hr) as [Hlnd _].
  set (languages := Translator.languages self) in *. split.
  - intros Hok.
    destruct (add_text_cases self key arguments trs)
      as [[_ H]|[[_ [e [_ H]]]|[Hk [p [Hp [[_ H]|[Hsize H]]]]]]];
      rewrite H in Hok; simplify_eq/=.
    pose proof (process_translations_keys _ _ _ _ Hp) as [Hreg Hkeys].
    split_and!; [done|done|by eapply process_translations_NoDup|].
    intros l Hl. apply list_elem_of_lookup in Hl as [i Hi].
    assert (Hfull : ∀ j, is_Some (p !! j) ↔ j < length languages).
    { apply full_dom; [|done]. intros j Hj. apply Hkeys in Hj as [[? Hj]|[l' [_ Hl']]];
        [by rewrite lookup_empty in Hj|]. by eapply position_lt. }
    assert (Hpi : is_Some (p !! i)) by (apply Hfull; by eapply lookup_lt_Some).
    apply Hkeys in Hpi as [[? Hpi]|[l' [Hl' Hpos]]]; [by rewrite lookup_empty in Hpi|].
    apply position_lookup in Hpos. unfold languages in Hi. congruence.
  - intros (Hk & Hreg & Hnd & Hcov).
    destruct (process_translations_ok languages ∅ trs Hlnd Hreg Hnd) as [p Hp].
    { intros ????. by rewrite lookup_empty. }
    destruct (add_text_cases self key arguments trs)
      as [[[? Hk'] _]|[[_ [e [He _]]]|[_ [p' [Hp' [[Hsize H]|[_ H]]]]]]].
    + congruence.
    + fold languages in He. congruence.
    + exfalso. fold languages in Hp', Hsize. rewrite Hp in Hp'. injection Hp' as <-.
      apply process_translations_keys in Hp as [_ Hkeys].
      assert (Hsub : set_seq 0 (length languages) ⊆ dom p).
      { intros i Hi. apply elem_of_set_seq in Hi.
        destruct (lookup_lt_is_Some_2 languages i) as [l Hl]; [lia|].
        apply elem_of_dom, Hkeys. right. exists l. split.
        - apply Hcov. by eapply list_elem_of_lookup_2.
        - by apply position_NoDup. }
      apply subseteq_size in Hsub. rewrite size_set_seq, size_dom in Hsub. lia.
    + by rewrite H.
Qed.

Lemma add_text_ok_iff_witness :
  reachable (new ["pt"; "en"; "it"]) ∧
  ((add_text (new ["pt"; "en"; "it"]) "greetings" ["NAME"]
     [("en", "Good morning, NAME!"); ("pt", "Bom dia, NAME!"); ("it", "Buongiorno, NAME!")]).2
     = Ok tt ↔
   Translator.translations (new ["pt"; "en"; "it"]) !! "greetings" = None ∧
   (∀ l, l ∈ [("en", "Good morning, NAME!"); ("pt", "Bom dia, NAME!");
              ("it", "Buongiorno, NAME!")].*1 → l ∈ Translator.languages (new ["pt"; "en"; "it"])) ∧
   NoDup [("en", "Good morning, NAME!"); ("pt", "Bom dia, NAME!"); ("it", "Buongiorno, NAME!")].*1 ∧
   (∀ l, l ∈ Translator.languages (new ["pt"; "en"; "it"]) →
         l ∈ [("en", "Good morning, NAME!"); ("pt", "Bom dia, NAME!");
              ("it", "Buongiorno, NAME!")].*1)).
Proof.
  assert (Hr : reachable (new ["pt"; "en"; "it"])) by (exists ["pt"; "en"; "it"]; apply rtc_refl).
  split; [exact Hr|]. exact (add_text_ok_iff _ "greetings" ["NAME"] _ Hr).
Defined.

Lemma check_args_Ok declared arguments values args r :
  check_args declared arguments values args = Ok r →
  Forall (λ b, b.1 ∈ declared) args ∧ NoDup args.*1 ∧
  ∀ x, x ∈ args.*1 → x ∉ arguments.
Proof.
  revert arguments values.
  induction args as [|[a v] args IH]; intros arguments values H; simpl in H.
  { split_and!; [constructor|constructor|]. intros x Hx. by apply elem_of_nil in Hx. }
  case_bool_decide as Hd; [|done]. case_bool_decide as Ha; [done|].
  destruct (IH _ _ H) as (Hdecl & Hnd & Hfresh). simpl. split_and!.
  - by constructor.
  - constructor; [|done]. intros Hin. apply (Hfresh a Hin). set_solver.
  - intros x Hx. apply elem_of_cons in Hx as [->|Hx]; [done|].
    specialize (Hfresh x Hx). set_solver.
Qed.

(** On a reachable registry, [translate] succeeds exactly when the key is
    registered, the language is registered, and the bindings name declared
    arguments, each at most once. *)
Theorem translate_ok_iff self key language args :
  reachable self →
  (∃ out, translate self key language args = Some (Ok out)) ↔
  ∃ entry, Translator.translations self !! key = Some entry ∧
    language ∈ Translator.languages self ∧
    Forall (λ b, b.1 ∈ Translation.arguments entry) args ∧ NoDup args.*1.
Proof.
  intros Hr. destruct (reachable_inv self Hr) as [_ Hent]. split.
  - intros [out H]. unfold translate in H.
    destruct (Translator.translations self !! key) as [entry|] eqn:Hk; [|done].
    destruct (position language _) as [i|] eqn:Hpos; [|done].
    destruct (Translation.translations entry !! i) as [tpl|]; [|done].
    destruct (check_args _ [] [] args) as [[arguments values]|e] eqn:Hc; [|done].
    apply check_args_Ok in Hc as (Hdecl & Hnd & _).
    exists entry. split_and!; [done| |done|done].
    apply position_lookup in Hpos. by eapply list_elem_of_lookup_2.
  - intros (entry & Hk & Hl & Hdecl & Hnd).
    destruct (position_elem _ _ Hl) as [i Hi].
    assert (Ht : is_Some (Translation.translations entry !! i)).
    { apply (Hent key entry Hk). by eapply position_lt. }
    destruct Ht as [tpl Ht].
    eexists. exact (translate_ok self key language args entry i tpl Hk Hi Ht Hdecl Hnd).
Qed.

Lemma translate_ok_iff_witness :
  reachable greetings ∧
  ((∃ out, translate greetings "greetings" "pt" [("NAME", "Julian")] = Some (Ok out)) ↔
   ∃ entry, Translator.translations greetings !! "greetings" = Some entry ∧
     "pt" ∈ Translator.languages greetings ∧
     Forall (λ b, b.1 ∈ Translation.arguments entry) [("NAME", "Julian")] ∧
     NoDup [("NAME", "Julian")].*1).
Proof.
  assert (Hr : reachable greetings).
  { exists ["pt"; "en"; "it"]. eapply rtc_l; [constructor|apply rtc_refl]. }
  split; [exact Hr|]. exact (translate_ok_iff greetings "greetings" "pt" _ Hr).
Defined.



Definition overlapping : Translator.t :=
  (add_text (new ["pt"; "en"; "it"]) "greetings" ["NAME"; "NAME2"]
     [("en", "Good morning, NAME! Good afternoon, NAME2!");
      ("pt", "Bom dia, NAME! Boa tarde, NAME2!");
      ("it", "Buongiorno, NAME! Buon pomeriggio, NAME2!")]).1.

Definition overlapping_entry : Translation.t :=
  Translation.mk ["NAME"; "NAME2"]
    (<[2 := "Bom dia, NAME! Boa tarde, NAME2!"]>
      (<[1 := "Buongiorno, NAME! Buon pomeriggio, NAME2!"]>
        (<[0 := "Good morning, NAME! Good afternoon, NAME2!"]> ∅))).


Example overlapping_pt :
  translate overlapping "greetings" "pt" [("NAME", "Julian"); ("NAME2", "Kyle")]
  = Some (Ok "Bom dia, Julian! Boa tarde, Julian2!").
Proof. vm_compute. reflexivity. Qed.

Lemma best_match_go_max best pats buf p v :
  best_match_go best pats buf = Some (p, v) →
  (∀ q w, best = Some (q, w) → length q ≤ length p) ∧
  ∀ q w, (q, w) ∈ pats → suffix q buf → length q ≤ length p.
Proof.
  revert best. induction pats as [|[a b] pats IH]; intros best H; simpl in H.
  { subst best. split; [|intros q w Hin; by apply elem_of_nil in Hin].
    intros q w Hq. injection Hq as -> ->. lia. }
  destruct (IH _ H) as [Hbest Hrest].
  destruct (bool_decide (suffix a buf) && longer best a) eqn:Hc.
  - apply andb_prop in Hc as [_ Hl]. split.
    + intros q w ->. simpl in Hl. apply bool_decide_eq_true_1 in Hl.
      specialize (Hbest a b eq_refl). lia.
    + intros q w Hin Hs. apply elem_of_cons in Hin as [Heq|Hin]; [|by eapply Hrest].
      injection Heq as Hq Hw. subst. exact (Hbest _ _ eq_refl).
  - split; [done|]. intros q w Hin Hs.
    apply elem_of_cons in Hin as [Heq|Hin]; [|by eapply Hrest].
    injection Heq as Hq Hw. subst. rewrite bool_decide_eq_true_2 in Hc by done. simpl in Hc.
    destruct best as [[q' w']|]; [|done]. simpl in Hc.
    apply bool_decide_eq_false_1 in Hc. specialize (Hbest q' w' eq_refl). lia.
Qed.

Lemma suffix_same_length (p p' buf : bytes) :
  suffix p buf → suffix p' buf → length p = length p' → p = p'.
Proof.
  intros [x Hx] [x' Hx'] Hlen. rewrite Hx in Hx'.
  by apply app_inj_2 in Hx' as [_ ->].
Qed.

Lemma NoDup_fst_functional {A B} (l : list (A * B)) k a b :
  NoDup l.*1 → (k, a) ∈ l → (k, b) ∈ l → a = b.
Proof.
  induction l as [|[k' c] l IH]; intros Hnd Ha Hb; [by apply elem_of_nil in Ha|].
  simpl in Hnd. apply NoDup_cons in Hnd as [Hk' Hnd].
  apply elem_of_cons in Ha as [Ha|Ha], Hb as [Hb|Hb].
  - by simplify_eq.
  - simplify_eq. exfalso. apply Hk'. apply list_elem_of_fmap. by exists (k', b).
  - simplify_eq. exfalso. apply Hk'. apply list_elem_of_fmap. by exists (k', a).
  - by apply IH.
Qed.

(** With distinct patterns, the reported pattern is the longest suffix,
    whatever the order the patterns were given in. *)
Lemma best_match_perm pats pats' buf :
  NoDup pats.*1 → pats ≡ₚ pats' → best_match pats buf = best_match pats' buf.
Proof.
  intros Hnd Hperm.
  destruct (best_match pats buf) as [[p v]|] eqn:E1,
           (best_match pats' buf) as [[p' v']|] eqn:E2; [| | |done].
  - pose proof (best_match_Some _ _ _ _ E1) as [Hin Hs].
    pose proof (best_match_Some _ _ _ _ E2) as [Hin' Hs'].
    apply best_match_go_max in E1 as [_ Hmax]. apply best_match_go_max in E2 as [_ Hmax'].
    assert (Hin'p : (p', v') ∈ pats) by by rewrite Hperm.
    assert (Hinp' : (p, v) ∈ pats') by by rewrite <-Hperm.
    assert (Hlen : length p = length p').
    { pose proof (Hmax p' v' Hin'p Hs'). pose proof (Hmax' p v Hinp' Hs). lia. }
    pose proof (suffix_same_length _ _ _ Hs Hs' Hlen) as <-.
    by rewrite (NoDup_fst_functional pats p v v').
  - exfalso. apply best_match_Some in E1 as [Hin Hs]. rewrite Hperm in Hin.
    by apply (best_match_None _ _ E2 p v).
  - exfalso. apply best_match_Some in E2 as [Hin Hs]. rewrite <-Hperm in Hin.
    by apply (best_match_None _ _ E1 p' v').
Qed.

Lemma replace_go_ext pats pats' :
  (∀ b, best_match pats b = best_match pats' b) →
  ∀ buf rest, replace_go pats buf rest = replace_go pats' buf rest.
Proof.
  intros H buf rest. revert buf. induction rest as [|c r IH]; intros buf; [done|].
  simpl. rewrite H. destruct (best_match pats' (buf ++ [c])) as [[p v]|]; by rewrite IH.
Qed.

Lemma try_replace_all_ext pats pats' hay :
  (∀ b, best_match pats b = best_match pats' b) →
  try_replace_all pats hay = try_replace_all pats' hay.
Proof.
  intros H. unfold try_replace_all. rewrite H.
  destruct (best_match pats' []) as [[p v]|]; [done|]. by apply replace_go_ext.
Qed.

Global Instance as_bytes_inj : Inj eq eq as_bytes.
Proof. intros s t H. by rewrite <-(from_bytes_as_bytes s), H, from_bytes_as_bytes. Qed.

Lemma bind_pats_fst args : (bind_pats args).*1 = as_bytes <$> args.*1.
Proof. induction args as [|[n v] args IH]; [done|]. simpl. f_equal. exact IH. Qed.

(** The order of the bindings does not matter: [translate] gives the same
    result for any permutation of declared, duplicate-free bindings, even
    when one bound name is a prefix of another. *)
Theorem translate_bindings_perm self key language args args' entry :
  Translator.translations self !! key = Some entry →
  Forall (λ b, b.1 ∈ Translation.arguments entry) args → NoDup args.*1 →
  args ≡ₚ args' →
  translate self key language args = translate self key language args'.
Proof.
  intros Hk Hdecl Hnd Hperm.
  assert (Hdecl' : Forall (λ b, b.1 ∈ Translation.arguments entry) args') by by rewrite <-Hperm.
  assert (Hnd' : NoDup args'.*1) by by rewrite <-Hperm.
  unfold translate. rewrite Hk.
  destruct (position language _) as [i|]; [|done].
  destruct (Translation.translations entry !! i) as [tpl|]; [|done].
  rewrite !check_args_ok by done. cbv beta iota. rewrite !zip_bind_pats.
  do 3 f_equal. apply try_replace_all_ext. intros b. apply best_match_perm.
  - rewrite bind_pats_fst. by apply (NoDup_fmap_2 _).
  - unfold bind_pats. by apply Permutation_map.
Qed.

Lemma translate_bindings_perm_witness :
  translate overlapping "greetings" "pt" [("NAME", "Julian"); ("NAME2", "Kyle")] =
  translate overlapping "greetings" "pt" [("NAME2", "Kyle"); ("NAME", "Julian")].
Proof.
  apply (translate_bindings_perm overlapping "greetings" "pt"
           [("NAME", "Julian"); ("NAME2", "Kyle")] [("NAME2", "Kyle"); ("NAME", "Julian")]
           overlapping_entry).
  - vm_compute. reflexivity.
  - repeat constructor.
  - repeat constructor; set_solver.
  - apply perm_swap.
Defined.

Lemma StronglySorted_lookup (l : list string) i j x y :
  StronglySorted String.le l → i < j → l !! i = Some x → l !! j = Some y → String.le x y.
Proof.
  revert i j. induction l as [|a l IH]; intros i j Hs Hij Hx Hy; [done|].
  apply StronglySorted_inv in Hs as [Hs Hall].
  destruct i as [|i], j as [|j]; simpl in Hx, Hy; [lia| |lia|].
  - injection Hx as <-. rewrite Forall_forall in Hall. apply Hall.
    by eapply list_elem_of_lookup_2.
  - apply (IH i j); [done|lia|done|done].
Qed.

(** [new] numbers the languages by their string order: every listed
    language gets an id, and one id is smaller than another exactly when
    its language sorts strictly before the other's. *)
Theorem new_language_ids (L : list string) l1 l2 :
  l1 ∈ L → l2 ∈ L →
  ∃ i1 i2,
    position l1 (Translator.languages (new L)) = Some i1 ∧
    position l2 (Translator.languages (new L)) = Some i2 ∧
    (i1 < i2 ↔ String.le l1 l2 ∧ l1 ≠ l2).
Proof.
  intros H1 H2. destruct (sort_dedup_spec L) as (Hs & Hnd & Hx).
  destruct (position_elem l1 (Translator.languages (new L))) as [i1 Hi1]; [by apply Hx|].
  destruct (position_elem l2 (Translator.languages (new L))) as [i2 Hi2]; [by apply Hx|].
  exists i1, i2. split_and!; [done|done|].
  pose proof (position_lookup _ _ _ Hi1) as Hl1. pose proof (position_lookup _ _ _ Hi2) as Hl2.
  simpl in Hl1, Hl2. split.
  - intros Hlt. split; [by eapply StronglySorted_lookup|].
    intros <-. rewrite Hi1 in Hi2. injection Hi2 as ->. lia.
  - intros [Hle Hne]. destruct (lt_eq_lt_dec i1 i2) as [[Hlt | ->] | Hgt]; [done| |].
    + exfalso. apply Hne. congruence.
    + exfalso. apply Hne. apply (anti_symm String.le); [done|].
      by apply (StronglySorted_lookup (dedup (sort L)) i2 i1).
Qed.

Lemma new_language_ids_witness :
  ∃ i1 i2,
    position "en" (Translator.languages (new ["pt"; "en"; "it"])) = Some i1 ∧
    position "pt" (Translator.languages (new ["pt"; "en"; "it"])) = Some i2 ∧
    (i1 < i2 ↔ String.le "en" "pt" ∧ "en" ≠ "pt").
Proof.
  apply new_language_ids.
  - right. left.
  - left.
Defined.


Definition empty_arg : Translator.t :=
  (add_text (new ["en"]) "e" [""; "a"] [("en", "ab")]).1.


Example empty_arg_en :
  translate empty_arg "e" "en" [("", "-"); ("a", "X")] = Some (Ok "-a-b-").
Proof. vm_compute. reflexivity. Qed.

Lemma step_keeps_entry self self' key entry :
  step self self' →
  Translator.translations self !! key = Some entry →
  Translator.languages self' = Translator.languages self ∧
  Translator.translations self' !! key = Some entry.
Proof.
  intros [self0 k arguments trs] Hk.
  destruct (add_text_cases self0 k arguments trs)
    as [[_ H]|[[_ [e [_ H]]]|[Hk0 [p [_ [[_ H]|[_ H]]]]]]]; rewrite H; simpl; [done..|].
  split; [done|]. rewrite lookup_insert_ne; [done|]. intros ->. congruence.
Qed.

(** A registered key's translations are permanent: after any further
    [add_text] calls, [translate] on that key answers as before. *)
Theorem translate_stable self self' key language args :
  rtc step self self' →
  is_Some (Translator.translations self !! key) →
  translate self' key language args = translate self key language args.
Proof.
  intros Hsteps [entry Hk].
  assert (Hkeep : Translator.languages self' = Translator.languages self ∧
                  Translator.translations self' !! key = Some entry).
  { clear language args. induction Hsteps as [|x y z Hxy _ IH]; [done|].
    destruct (step_keeps_entry x y key entry Hxy Hk) as [Hl Hk'].
    destruct (IH Hk') as [Hl' Hk'']. split; [congruence|done]. }
  destruct Hkeep as [Hl Hk']. unfold translate. by rewrite Hl, Hk, Hk'.
Qed.

Lemma translate_stable_witness :
  translate (add_text hello "bye" [] [("en", "Bye")]).1 "hello" "en" [("NAME", "Julian")] =
  translate hello "hello" "en" [("NAME", "Julian")].
Proof.
  apply translate_stable.
  - eapply rtc_l; [constructor|apply rtc_refl].
  - vm_compute. eauto.
Defined.

(** With no languages, a key can only be added with no translation pairs,
    and translating it then always fails with [UnknownLanguage]. *)
Theorem new_no_languages key arguments trs language args :
  ((add_text (new []) key arguments trs).2 = Ok tt ↔ trs = []) ∧
  translate (add_text (new []) key arguments []).1 key language args =
    Some (Err (UnknownLanguage language)).
Proof.
  assert (Hl : Translator.languages (new []) = []) by reflexivity.
  split.
  - unfold add_text. rewrite Hl. cbn [Translator.translations new]. rewrite lookup_empty.
    rewrite bool_decide_eq_false_2 by (by intros []).
    destruct trs as [|[l m] trs]; simpl; [split; done|split; discriminate].
  - unfold add_text, translate. rewrite Hl. cbn [Translator.translations new].
    rewrite lookup_empty, bool_decide_eq_false_2 by (by intros []). simpl.
    by rewrite lookup_insert_eq.
Qed.

(** Registering two different keys gives the same registry in either
    order, whether or not each call succeeds. *)
Theorem add_text_commute self k1 arguments1 trs1 k2 arguments2 trs2 :
  k1 ≠ k2 →
  (add_text (add_text self k1 arguments1 trs1).1 k2 arguments2 trs2).1 =
  (add_text (add_text self k2 arguments2 trs2).1 k1 arguments1 trs1).1.
Proof.
  intros Hne. destruct self as [L T]. unfold add_text; cbn [Translator.translations Translator.languages].
  destruct (process_translations L ∅ trs1) as [p1|e1] eqn:E1;
  destruct (process_translations L ∅ trs2) as [p2|e2] eqn:E2;
  repeat (case_bool_decide; cbn [fst Translator.translations Translator.languages] in *;
          rewrite ?E1, ?E2);
  try done; rewrite ?lookup_insert_ne in * by congruence; try done.
  f_equal. by apply insert_insert_ne.
Qed.

Lemma add_text_commute_witness :
  (add_text (add_text hello "a" [] [("en", "A")]).1 "b" [] [("en", "B")]).1 =
  (add_text (add_text hello "b" [] [("en", "B")]).1 "a" [] [("en", "A")]).1.
Proof. apply add_text_commute. discriminate. Defined.










(** [new] is idempotent: building a registry from the languages of a
    registry gives the same languages again. *)
Theorem new_idempotent (L : list string) :
  new (Translator.languages (new L)) = new L.
Proof.
  apply new_languages_ext. intros x. destruct (sort_dedup_spec L) as (_ & _ & H). apply H.
Qed.

Lemma check_args_names declared arguments values values' args args' :
  args.*1 = args'.*1 →
  ∀ e, check_args declared arguments values args = Err e ↔
       check_args declared arguments values' args' = Err e.
Proof.
  revert arguments values values' args'.
  induction args as [|[a x] args IH]; intros arguments values values' [|[a' x'] args'] Hn e;
    simpl in Hn; try discriminate; simpl; [done|].
  injection Hn as <- Hn.
  case_bool_decide; [|done]. case_bool_decide; [done|]. by apply IH.
Qed.

(** Validation never looks at the bound values: two binding lists with the
    same names in the same order fail with the same error or not at all. *)
Theorem translate_errors_ignore_values self key language args args' :
  args.*1 = args'.*1 →
  ∀ e, translate self key language args = Some (Err e) ↔
       translate self key language args' = Some (Err e).
Proof.
  intros Hn e. unfold translate.
  destruct (Translator.translations self !! key) as [entry|]; [|done].
  destruct (position language _) as [i|]; [|done].
  destruct (Translation.translations entry !! i) as [tpl|]; [|done].
  pose proof (check_args_names (Translation.arguments entry) [] [] [] args args' Hn e) as He.
  destruct (check_args _ [] [] args) as [[a1 v1]|e1],
           (check_args _ [] [] args') as [[a2 v2]|e2]; naive_solver.
Qed.

Lemma translate_errors_ignore_values_witness :
  translate greetings "greetings" "pt" [("NAME", "a"); ("NAME", "b")]
    = Some (Err (DuplicatedArgument "NAME")) ↔
  translate greetings "greetings" "pt" [("NAME", "c"); ("NAME", "d")]
    = Some (Err (DuplicatedArgument "NAME")).
Proof. apply translate_errors_ignore_values. reflexivity. Defined.

(** ** The replace pass as a scan

    [scan] returns the segments [try_replace_all] walks through: each one
    is the gap before a match, the matched pattern and its value; the last
    component is the gap after the last match.  Which pattern matches where
    depends only on the patterns, never on the values. *)
Fixpoint scan_go (pats : list (bytes * bytes)) (buf rest : bytes)
    : list (bytes * (bytes * bytes)) * bytes :=
  match rest with
  | [] => ([], buf)
  | c :: r =>
      let buf' := buf ++ [c] in
      match best_match pats buf' with
      | Some (p, v) =>
          let sg := scan_go pats [] r in
          ((take (length buf' - length p) buf', (p, v)) :: sg.1, sg.2)
      | None => scan_go pats buf' r
      end
  end.

Definition scan (pats : list (bytes * bytes)) (hay : bytes)
    : list (bytes * (bytes * bytes)) * bytes :=
  match best_match pats [] with
  | Some pv => (([], pv) :: map (λ c, ([c], pv)) hay, [])
  | None => scan_go pats [] hay
  end.

Lemma scan_go_out pats buf rest :
  replace_go pats buf rest =
    concat (map seg_out (scan_go pats buf rest).1) ++ (scan_go pats buf rest).2.
Proof.
  revert buf. induction rest as [|c r IH]; intros buf; [done|]. simpl.
  destruct (best_match pats (buf ++ [c])) as [[p v]|]; [|apply IH].
  simpl. rewrite IH. unfold seg_out. simpl. by rewrite <-!app_assoc.
Qed.

Lemma scan_go_src pats buf rest :
  buf ++ rest = concat (map seg_src (scan_go pats buf rest).1) ++ (scan_go pats buf rest).2.
Proof.
  revert buf. induction rest as [|c r IH]; intros buf; simpl; [by rewrite app_nil_r|].
  replace (buf ++ c :: r) with ((buf ++ [c]) ++ r) by by rewrite <-app_assoc.
  destruct (best_match pats (buf ++ [c])) as [[p v]|] eqn:Hb; [|apply IH].
  apply best_match_Some in Hb as [_ [x Hx]]. simpl. rewrite Hx, take_before_suffix.
  unfold seg_src. simpl. rewrite <-!app_assoc. f_equal. f_equal. exact (IH []).
Qed.

Lemma replace_empty_concat v hay : replace_empty v hay = v ++ concat (map (λ c, c :: v) hay).
Proof. induction hay as [|c r IH]; simpl; [by rewrite app_nil_r|]. by rewrite IH. Qed.

Lemma scan_out pats hay :
  try_replace_all pats hay = concat (map seg_out (scan pats hay).1) ++ (scan pats hay).2.
Proof.
  unfold try_replace_all, scan.
  destruct (best_match pats []) as [[p v]|]; [|apply scan_go_out].
  simpl. rewrite replace_empty_concat, app_nil_r, map_map. unfold seg_out. simpl.
  done.
Qed.

Lemma scan_src pats hay :
  hay = concat (map seg_src (scan pats hay).1) ++ (scan pats hay).2.
Proof.
  unfold scan. destruct (best_match pats []) as [[p v]|] eqn:Hb; [|exact (scan_go_src pats [] hay)].
  apply best_match_Some in Hb as [_ Hs%suffix_nil_inv]. subst p.
  simpl. rewrite app_nil_r, map_map. unfold seg_src. simpl.
  induction hay as [|c r IH]; [done|]. simpl. by rewrite <-IH.
Qed.

Lemma scan_go_in pats buf rest : Forall (λ sg, sg.2 ∈ pats) (scan_go pats buf rest).1.
Proof.
  revert buf. induction rest as [|c r IH]; intros buf; simpl; [constructor|].
  destruct (best_match pats (buf ++ [c])) as [[p v]|] eqn:Hb; [|apply IH].
  apply best_match_Some in Hb as [Hin _]. constructor; [done|apply IH].
Qed.

Lemma scan_in pats hay : Forall (λ sg, sg.2 ∈ pats) (scan pats hay).1.
Proof.
  unfold scan. destruct (best_match pats []) as [pv|] eqn:Hb; [|apply scan_go_in].
  destruct pv as [p v]. apply best_match_Some in Hb as [Hin _].
  constructor; [done|]. apply Forall_forall. intros sg Hsg.
  apply list_elem_of_In, in_map_iff in Hsg as (c & <- & _). done.
Qed.

Section scan_rel.
(** Two pattern lists with the same patterns, position by position, and
    values related by [Q]. *)
Variable Q : bytes → bytes → bytes → Prop.

Definition rel_pat (x y : bytes * bytes) : Prop := x.1 = y.1 ∧ Q x.1 x.2 y.2.

Definition rel_opt (o o' : option (bytes * bytes)) : Prop :=
  match o, o' with
  | None, None => True
  | Some x, Some y => rel_pat x y
  | _, _ => False
  end.

Definition rel_seg (s s' : bytes * (bytes * bytes)) : Prop := s.1 = s'.1 ∧ rel_pat s.2 s'.2.

Lemma best_match_go_rel best best' ps ps' buf :
  Forall2 rel_pat ps ps' → rel_opt best best' →
  rel_opt (best_match_go best ps buf) (best_match_go best' ps' buf).
Proof.
  intros Hps. revert best best'.
  induction Hps as [|[p v] [p' v'] ps ps' [Hp Hq] _ IH]; intros best best' Hb; [done|].
  simpl in Hp, Hq. subst p'. simpl. apply IH.
  assert (Hl : longer best p = longer best' p).
  { destruct best as [[q w]|], best' as [[q' w']|]; try done.
    destruct Hb as [Hq' _]. simpl in Hq'. by subst q'. }
  rewrite Hl. by destruct (bool_decide (suffix p buf) && longer best' p).
Qed.

Lemma best_match_rel ps ps' buf :
  Forall2 rel_pat ps ps' → rel_opt (best_match ps buf) (best_match ps' buf).
Proof. intros H. by apply best_match_go_rel. Qed.

Lemma scan_go_rel ps ps' buf rest :
  Forall2 rel_pat ps ps' →
  Forall2 rel_seg (scan_go ps buf rest).1 (scan_go ps' buf rest).1 ∧
  (scan_go ps buf rest).2 = (scan_go ps' buf rest).2.
Proof.
  intros Hps. revert buf. induction rest as [|c r IH]; intros buf; simpl; [done|].
  pose proof (best_match_rel ps ps' (buf ++ [c]) Hps) as Hb.
  destruct (best_match ps (buf ++ [c])) as [[p v]|],
           (best_match ps' (buf ++ [c])) as [[p' v']|]; simpl in Hb; try done;
    try apply IH.
  destruct Hb as [Hp Hq]. simpl in Hp, Hq. subst p'.
  destruct (IH []) as [Hsegs Hg]. simpl. split; [|done].
  constructor; [|done]. split; [done|]. by split.
Qed.

Lemma scan_rel ps ps' hay :
  Forall2 rel_pat ps ps' →
  Forall2 rel_seg (scan ps hay).1 (scan ps' hay).1 ∧ (scan ps hay).2 = (scan ps' hay).2.
Proof.
  intros Hps. unfold scan. pose proof (best_match_rel ps ps' [] Hps) as Hb.
  destruct (best_match ps []) as [x|], (best_match ps' []) as [y|]; simpl in Hb; try done;
    [|by apply scan_go_rel].
  simpl. split; [|done]. constructor; [by split|].
  induction hay as [|c r IH]; simpl; constructor; [by split|done].
Qed.
End scan_rel.

Lemma Forall2_map_eq {A B C} (R : A → B → Prop) (f : A → C) (g : B → C) l k :
  Forall2 R l k → (∀ a b, R a b → f a = g b) → map f l = map g k.
Proof. intros H Hfg. induction H as [|a b l k Hab _ IH]; simpl; [done|]. by rewrite (Hfg a b Hab), IH. Qed.

Lemma Forall2_compose {A B C} (R1 : A → B → Prop) (R2 : B → C → Prop) l k m :
  Forall2 R1 l k → Forall2 R2 k m → Forall2 (λ a c, ∃ b, R1 a b ∧ R2 b c) l m.
Proof.
  intros H1. revert m. induction H1 as [|a b l k Hab _ IH]; intros m H2; inversion H2; subst;
    constructor; eauto.
Qed.

Lemma Forall2_Forall_left {A B} (R : A → B → Prop) (P : A → Prop) l k :
  Forall2 R l k → (∀ a b, R a b → P a) → Forall P l.
Proof. intros H HP. induction H; constructor; eauto. Qed.

Lemma tag_segs (pats : list (bytes * bytes)) (segs : list (bytes * (bytes * bytes))) :
  Forall (λ sg, sg.2 ∈ pats) segs →
  ∃ T : list (bytes * nat), Forall2 (λ t sg, t.1 = sg.1 ∧ pats !! t.2 = Some sg.2) T segs.
Proof.
  induction 1 as [|sg segs Hin _ [T HT]]; [by exists []|].
  apply list_elem_of_lookup in Hin as [j Hj]. exists ((sg.1, j) :: T). by constructor.
Qed.

Lemma bind_pats_lookup args j p w :
  bind_pats args !! j = Some (p, w) →
  ∃ n v, args !! j = Some (n, v) ∧ p = as_bytes n ∧ w = as_bytes v.
Proof.
  revert j. induction args as [|[n v] args IH]; intros j H; [done|].
  destruct j as [|j]; simpl in H; [|by apply IH].
  injection H as <- <-. by exists n, v.
Qed.

Lemma bind_pats_lookup_2 args j n v :
  args !! j = Some (n, v) → bind_pats args !! j = Some (as_bytes n, as_bytes v).
Proof.
  revert j. induction args as [|[n' v'] args IH]; intros j H; [done|].
  destruct j as [|j]; simpl in H |- *; [by injection H as -> ->|by apply IH].
Qed.

Lemma length_bind_pats args : length (bind_pats args) = length args.
Proof. apply length_map. Qed.

Lemma bind_pats_same_names args args' :
  args'.*1 = args.*1 → NoDup args.*1 →
  Forall2 (rel_pat (λ p v v', ∀ j, bind_pats args !! j = Some (p, v) →
                                  bind_pats args' !! j = Some (p, v')))
    (bind_pats args) (bind_pats args').
Proof.
  intros Hn Hnd. apply Forall2_lookup. intros i.
  assert (Hlen : length args' = length args).
  { by rewrite <-(length_fmap fst args), <-(length_fmap fst args'), Hn. }
  destruct (bind_pats args !! i) as [[p w]|] eqn:E.
  - apply bind_pats_lookup in E as Ea. destruct Ea as (n & v & Ha & -> & ->).
    destruct (lookup_lt_is_Some_2 args' i) as [[n' v'] Ha'].
    { rewrite Hlen. by eapply lookup_lt_Some. }
    assert (n' = n) as ->.
    { assert (H1 : args'.*1 !! i = Some n') by (rewrite list_lookup_fmap, Ha'; done).
      assert (H2 : args.*1 !! i = Some n) by (rewrite list_lookup_fmap, Ha; done).
      congruence. }
    rewrite (bind_pats_lookup_2 args' i n v' Ha'). constructor. split; [done|].
    intros j Hj. simpl in Hj |- *.
    apply bind_pats_lookup in Hj as (m & u & Hm & Hmn & Hu).
    apply (inj as_bytes) in Hmn. subst m.
    assert (j = i) as ->.
    { apply (NoDup_lookup args.*1 j i n Hnd); rewrite list_lookup_fmap; [by rewrite Hm|by rewrite Ha]. }
    by apply bind_pats_lookup_2.
  - rewrite lookup_ge_None_2; [constructor|].
    apply lookup_ge_None in E. rewrite length_bind_pats in E |- *. lia.
Qed.

(** C2: the pass is single.  For a found template and validated bindings,
    the template is cut once into gaps and bound names, and that cut
    depends only on the template and the names: for every binding list
    with the same names, the output is the same cut with each name
    replaced verbatim by its value.  The output is never scanned again, so
    a value that is itself a placeholder name stays as it is. *)
Theorem translate_single_pass self key language (args : list (string * string)) entry i tpl :
  Translator.translations self !! key = Some entry →
  position language (Translator.languages self) = Some i →
  Translation.translations entry !! i = Some tpl →
  Forall (λ b, b.1 ∈ Translation.arguments entry) args → NoDup args.*1 →
  ∃ (segs : list (bytes * nat)) g,
    Forall (λ sg, sg.2 < length args) segs ∧
    as_bytes tpl = concat (map (λ sg, sg.1 ++ as_bytes (args !!! sg.2).1) segs) ++ g ∧
    ∀ args' : list (string * string), args'.*1 = args.*1 →
      translate self key language args' =
        Some (Ok (from_bytes
          (concat (map (λ sg, sg.1 ++ as_bytes (args' !!! sg.2).2) segs) ++ g))).
Proof.
  intros Hk Hi Ht Hdecl Hnd.
  set (P := bind_pats args). set (hay := as_bytes tpl).
  destruct (tag_segs P (scan P hay).1 (scan_in P hay)) as [T HT].
  exists T, (scan P hay).2. split_and!.
  - apply (Forall2_Forall_left _ _ _ _ HT). intros t sg [_ Hj].
    apply lookup_lt_Some in Hj. unfold P in Hj. by rewrite length_bind_pats in Hj.
  - rewrite (scan_src P hay) at 1. f_equal. f_equal. symmetry.
    apply (Forall2_map_eq _ _ _ _ _ HT). intros [gap j] [gap' [p w]] [Hgap Hj].
    simpl in *. subst gap'. apply bind_pats_lookup in Hj as (n & v & Ha & -> & ->).
    unfold seg_src. simpl. by rewrite (list_lookup_total_correct args j (n, v) Ha).
  - intros args' Hn.
    assert (Hdecl' : Forall (λ b, b.1 ∈ Translation.arguments entry) args').
    { assert (H1 : Forall (λ x, x ∈ Translation.arguments entry) args.*1) by by apply Forall_fmap.
      rewrite <-Hn in H1. by apply Forall_fmap in H1. }
    assert (Hnd' : NoDup args'.*1) by by rewrite Hn.
    rewrite (translate_ok self key language args' entry i tpl) by done.
    do 3 f_equal. fold hay. set (P' := bind_pats args').
    destruct (scan_rel _ P P' hay (bind_pats_same_names args args' Hn Hnd)) as [Hsegs Hg].
    rewrite scan_out, <-Hg. f_equal. f_equal. symmetry.
    apply (Forall2_map_eq _ _ _ _ _ (Forall2_compose _ _ _ _ _ HT Hsegs)).
    intros [gap j] [gap' [p' w']] (sg & [Hgap Hj] & [Hgap' [Hp Hq]]).
    destruct sg as [gap0 [p w]]. simpl in *. subst gap0 gap' p'.
    specialize (Hq j Hj). apply bind_pats_lookup in Hq as (n & v & Ha & _ & ->).
    unfold seg_out. simpl. by rewrite (list_lookup_total_correct args' j (n, v) Ha).
Qed.

Lemma translate_single_pass_witness :
  translate hello "hello" "en" [("NAME", "NAME")] = Some (Ok "Hello, NAME!").
Proof.
  destruct (translate_single_pass hello "hello" "en" [("NAME", "NAME")] hello_entry 0
              "Hello, NAME!") as (segs & g & _ & Htpl & Hall).
  - vm_compute. reflexivity.
  - vm_compute. reflexivity.
  - vm_compute. reflexivity.
  - repeat constructor.
  - repeat constructor. set_solver.
  - rewrite (Hall [("NAME", "NAME")] eq_refl).
    assert (Hsame : map (λ sg, sg.1 ++ as_bytes ([("NAME", "NAME")] !!! sg.2).2) segs =
                    map (λ sg, sg.1 ++ as_bytes ([("NAME", "NAME")] !!! sg.2).1) segs).
    { apply map_ext. intros [gap [|j]]; reflexivity. }
    rewrite Hsame, <-Htpl. reflexivity.
Defined.

Definition swap_registry : Translator.t :=
  (add_text (new ["en"]) "swap" ["A"; "B"] [("en", "A-B")]).1.

(** Swapping two names in one pass: the values are not looked at again. *)
Example swap_single_pass :
  translate swap_registry "swap" "en" [("A", "B"); ("B", "A")] = Some (Ok "B-A").
Proof. vm_compute. reflexivity. Qed.
